(** * Flask-Authorize: the authorization decision of [flask_authorize/plugin.py]

    A shallow embedding of the plugin's decision code ([has_permission],
    [user_has_role], [user_in_group], [user_is_restricted],
    [user_is_allowed], [Authorizer.__init__], [Authorizer.__call__] and
    [Authorizer.allowed]) together with the properties the specification
    states about it, and of its set-up and decoration code
    ([flask_login_current_user], [Authorize.__init__], [Authorize.init_app],
    the authorizers [Authorize] hands out, and the wrapper [inner]) with
    further properties read off the code.

    Python values are modelled as follows.
    - a [set] of action names is a [gset string]; a [list] of them is a
      [list string]; both are iterable and sized, which is all
      [has_permission] asks of its arguments ([PyColl]);
    - a [dict] is a [gmap]; [d.get(k, default)] is [default d (m !! k)];
    - an attribute that an object may lack ([hasattr]) is an [option], and one
      that may in addition hold [None] is an [attr];
    - a value that may be a [list] or a [tuple] is a [PySeq];
    - objects are compared with [==] by identity, carried by an [_id] field;
    - a raised exception is the [Raise] case of [result]. *)

From stdpp Require Import gmap strings list fin_sets.

#[local] Set Warnings "-clear-no-such-hyp".

Open Scope string_scope.
Open Scope list_scope.

(** ** Python values *)

(** An attribute read through [hasattr(o, 'a') and o.a is not None]. *)
Inductive attr (A : Type) : Type :=
| NoAttr            (* the object has no such attribute *)
| AttrNone          (* the attribute is there and holds None *)
| AttrVal (a : A).  (* the attribute holds a value *)
Arguments NoAttr {A}.
Arguments AttrNone {A}.
Arguments AttrVal {A} a.

Inductive exn : Type :=
| AssertionError (msg : string)
| TypeError (msg : string)
| KeyError (key : string)
| Unauthorized.

Inductive result (A : Type) : Type :=
| Ok (a : A)
| Raise (e : exn).
Arguments Ok {A} a.
Arguments Raise {A} e.

#[global] Instance result_ret : MRet result := λ A a, Ok a.
#[global] Instance result_bind : MBind result := λ A B k r,
  match r with
  | Ok a => k a
  | Raise e => Raise e
  end.

(** What [has_permission] uses of its arguments: iteration and [len]. *)
Class PyColl (C : Type) := {
  py_items : C → list string;
  py_len : C → nat
}.

#[global] Instance list_PyColl : PyColl (list string) :=
  {| py_items := λ l, l; py_len := length |}.

#[global] Instance gset_PyColl : PyColl (gset string) :=
  {| py_items := elements; py_len := size |}.

(** [set(c)] *)
Definition py_set `{PyColl C} (c : C) : gset string := list_to_set (py_items c).

(** ** The domain objects the plugin inspects *)

(** A role or a group.  [cred_name] is the [name] attribute when the object
    has one, [cred_str] is [str(cred)]. *)
Record Credential : Type := {
  cred_id : nat;
  cred_name : option string;
  cred_str : string;
  restrictions : attr (gmap string (list string));
  allowances : attr (gmap string (list string))
}.

Record User : Type := {
  user_id : nat;
  roles : option (list Credential);   (* None: no [roles] attribute *)
  groups : option (list Credential)   (* None: no [groups] attribute *)
}.

(** A candidate target: any value passed to the authorizer.  [obj_class] names
    its class ([obj.__class__]); [permissions], [owner] and [group] are [None]
    when the object has no such attribute. *)
Record Object : Type := {
  obj_class : string;
  permissions : option (gmap string (list string));
  owner : option User;
  group : option Credential
}.

(** A positional argument of [Authorizer.__call__]: a plain function (named
    by its [__name__]) or any other object. *)
Inductive Arg : Type :=
| AFunc (name : string)
| AObj (o : Object).

(** [arg.owner == user] and the [==] behind [arg.group in user.groups]. *)
Definition user_eqb (a b : User) : bool := Nat.eqb (user_id a) (user_id b).
Definition cred_eqb (a b : Credential) : bool := Nat.eqb (cred_id a) (cred_id b).

(** [x in l] *)
Fixpoint cred_in (x : Credential) (l : list Credential) : bool :=
  match l with
  | [] => false
  | y :: l' => if cred_eqb x y then true else cred_in x l'
  end.

(** ** helpers *)

(** <<
    def has_permission(expected, actual):
        x = set(expected).intersection(actual)
        return len(x) == len(expected)
    >> *)
Definition has_permission `{PyColl E} `{PyColl A} (expected : E) (actual : A) : bool :=
  let x := py_set expected ∩ py_set actual in
  bool_decide (size x = py_len expected).

(** The [check] of both loops below:
    [role.name if hasattr(role, 'name') else str(role)]. *)
Definition check_name (cred : Credential) : string :=
  match cred_name cred with
  | Some name => name
  | None => cred_str cred
  end.

(** The loop shared by [user_has_role] and [user_in_group]:
    <<
    for role in creds:
        check = role.name if hasattr(role, 'name') else str(role)
        if check in names:
            return True
    return False
    >> *)
Fixpoint any_check_in (creds : list Credential) (names : list string) : bool :=
  match creds with
  | [] => false
  | role :: creds' =>
      if bool_decide (check_name role ∈ names) then true
      else any_check_in creds' names
  end.

Definition user_has_role (user : User) (roles' : list string) : bool :=
  match roles user with
  | None => false                       (* not hasattr(user, 'roles') *)
  | Some rs => any_check_in rs roles'
  end.

Definition user_in_group (user : User) (groups' : list string) : bool :=
  match groups user with
  | None => false                       (* not hasattr(user, 'groups') *)
  | Some gs => any_check_in gs groups'
  end.

(** "gather credentials to check": the roles, then the groups. *)
Definition credentials (user : User) : list Credential :=
  default [] (roles user) ++ default [] (groups user).

(** "check all credentials" of [user_is_restricted]. *)
Fixpoint any_restricted (key : string) (operation : gset string)
    (creds : list Credential) : bool :=
  match creds with
  | [] => false
  | cred :: creds' =>
      match restrictions cred with
      | AttrVal m =>
          let check : gset string := py_set (default [] (m !! key)) in
          if negb (size (check ∩ operation) =? 0)%nat then true
          else any_restricted key operation creds'
      | _ => any_restricted key operation creds'
      end
  end.

(** "gather allowances from credentials" of [user_is_allowed]: [None] is the
    early [return True], [Some l] the list the loop ends with. *)
Fixpoint gather_allowances (key : string) (default_ : list string)
    (creds : list Credential) (allowances' : list string) : option (list string) :=
  match creds with
  | [] => Some allowances'
  | cred :: creds' =>
      match allowances cred with
      | NoAttr => None
      | AttrNone => None
      | AttrVal m =>
          gather_allowances key default_ creds'
            (allowances' ++ default default_ (m !! key))
      end
  end.

(** ** Authorizer *)

(** A list or a tuple of strings. *)
Inductive PySeq : Type :=
| PyList (items : list string)
| PyTuple (items : list string).

(** The elements of a sequence: what [len], [in], [set] and iteration read
    of it. *)
Definition seq_items (s : PySeq) : list string :=
  match s with
  | PyList items => items
  | PyTuple items => items
  end.

(** The double quote. *)
Definition dquote : string := String (Ascii.ascii_of_nat 34) EmptyString.

(** [a + b] on sequences: a list takes a list and a tuple a tuple. *)
Definition seq_add (a b : PySeq) : result PySeq :=
  match a, b with
  | PyList x, PyList y => Ok (PyList (x ++ y))
  | PyTuple x, PyTuple y => Ok (PyTuple (x ++ y))
  | PyList _, PyTuple _ =>
      Raise (TypeError ("can only concatenate list (not " +:+ dquote
                        +:+ "tuple" +:+ dquote +:+ ") to list"))
  | PyTuple _, PyList _ =>
      Raise (TypeError ("can only concatenate tuple (not " +:+ dquote
                        +:+ "list" +:+ dquote +:+ ") to tuple"))
  end.

(** The four attributes of an authorizer, each a list or a tuple. *)
Record Authorizer : Type := {
  permission_attr : PySeq;
  has_role_attr : PySeq;
  in_group_attr : PySeq;
  model_attr : PySeq
}.

(** The elements of [self.permission], [self.has_role], [self.in_group] and
    [self.model]; the decision reads the attributes through [len], [in] and
    [set] only, which see the elements and not whether they come in a list
    or in a tuple. *)
Definition permission (self : Authorizer) : list string :=
  seq_items (permission_attr self).
Definition has_role (self : Authorizer) : list string :=
  seq_items (has_role_attr self).
Definition in_group (self : Authorizer) : list string :=
  seq_items (in_group_attr self).
Definition model (self : Authorizer) : list string :=
  seq_items (model_attr self).

(** A constructor argument: absent ([None]), a scalar, a list or a tuple. *)
Inductive InitArg : Type :=
| INone
| IScalar (s : string)
| IList (l : list string)
| ITuple (l : list string).

(** The local [_] of [Authorizer.__init__]: a list and a tuple are kept as
    they are. *)
Definition listify (arg : InitArg) : PySeq :=
  match arg with
  | INone => PyList []
  | IScalar s => PyList [s]
  | IList l => PyList l
  | ITuple l => PyTuple l
  end.

(** A sequence passed as a constructor argument. *)
Definition seq_arg (s : PySeq) : InitArg :=
  match s with
  | PyList items => IList items
  | PyTuple items => ITuple items
  end.

Definition Authorizer_init (permission' has_role' in_group' model' : InitArg) : Authorizer :=
  {| permission_attr := listify permission';
     has_role_attr := listify has_role';
     in_group_attr := listify in_group';
     model_attr := listify model' |}.

(** The [user] keyword of [allowed]: absent or [None], a function (given by
    what calling it yields), or a user object. *)
Inductive UserKw : Type :=
| KwNone
| KwFunc (call : result (option User))
| KwUser (u : User).

(** What [Authorizer.__call__] returns: a decision, or the decorated function
    (the cache as it leaves it and the [auth] the wrapper closes over). *)
Inductive CallOutcome : Type :=
| Decision (b : bool)
| Decorated (cache : gmap string Authorizer) (auth : Authorizer).

Section Plugin.

(** From [flask_authorize.mixins] and the application's configuration:
    [table_key] maps a class to its lookup key, [default_allowances] is
    what [default_allowances()] returns. *)
Variable table_key : string → string.
Variable default_allowances : list string.

(** What calling the global [CURRENT_USER] yields. *)
Variable CURRENT_USER : result (option User).

Definition user_is_restricted (user : User) (operation : gset string)
    (obj : Object) : bool :=
  let key := table_key (obj_class obj) in
  let credentials := credentials user in
  if (length credentials =? 0)%nat then false
  else any_restricted key operation credentials.

Definition user_is_allowed (user : User) (operation : gset string)
    (obj : Object) : bool :=
  let key := table_key (obj_class obj) in
  let credentials := credentials user in
  if (length credentials =? 0)%nat then true
  else
    match gather_allowances key default_allowances credentials [] with
    | None => true
    | Some allowances' =>
        let check := py_set allowances' ∩ operation in
        if (size check =? size operation)%nat then true else false
    end.

(** One iteration of the loop of [allowed]: [Some b] is [return b], [None]
    falls through to the next argument.  The test
    [isinstance(arg.__class__, six.class_types)] holds of every object (its
    [__class__] is a class), so only [hasattr(arg, 'permissions')] decides
    whether an argument is looked at. *)
Definition check_arg (user : User) (operation : gset string) (arg : Arg)
    : option bool :=
  match arg with
  | AFunc _ => None
  | AObj arg =>
      match permissions arg with
      | None => None
      | Some perms =>
          if user_is_restricted user operation arg then Some false
          else if negb (user_is_allowed user operation arg) then Some false
          else if has_permission operation (default [] (perms !! "other"))
          then Some true
          else if
            match owner arg with
            | Some o =>
                user_eqb o user
                && has_permission operation (default [] (perms !! "owner"))
            | None => false
            end
          then Some true
          else if
            match group arg, groups user with
            | Some g, Some gs =>
                cred_in g gs
                && has_permission operation (default [] (perms !! "group"))
            | _, _ => false
            end
          then Some true
          else None
      end
  end.

(** "check permissions on individual instances" and the final
    [return False]. *)
Fixpoint check_args (user : User) (operation : gset string) (args : list Arg)
    : bool :=
  match args with
  | [] => false
  | arg :: args' =>
      match check_arg user operation arg with
      | Some b => b
      | None => check_args user operation args'
      end
  end.

Definition resolve_user (kw : UserKw) : result (option User) :=
  match kw with
  | KwNone => CURRENT_USER
  | KwFunc call => call
  | KwUser u => Ok (Some u)
  end.

Definition allowed (self : Authorizer) (args : list Arg) (kw : UserKw)
    : result bool :=
  user ← resolve_user kw;
  match user with
  | None => Ok false
  | Some user =>
      if negb (length (has_role self) =? 0)%nat && user_has_role user (has_role self)
      then Ok true
      else if negb (length (in_group self) =? 0)%nat && user_in_group user (in_group self)
      then Ok true
      else if (length (permission self) =? 0)%nat then Ok false
      else Ok (check_args user (py_set (permission self)) args)
  end.

(** The [updated] authorizer of [Authorizer.__call__]; its arguments are
    evaluated in order and the first [+] that fails raises. *)
Definition merged (original self : Authorizer) : result Authorizer :=
  permission' ← seq_add (permission_attr original) (permission_attr self);
  has_role' ← seq_add (has_role_attr original) (has_role_attr self);
  in_group' ← seq_add (in_group_attr original) (in_group_attr self);
  model' ← seq_add (model_attr original) (model_attr self);
  Ok (Authorizer_init (seq_arg permission') (seq_arg has_role')
        (seq_arg in_group') (seq_arg model')).

(** "allow for duplicate decorations on functions": the cache after
    decorating the function called [name], and whether the update returns
    or raises (the cache is then as it was). *)
Definition register (self : Authorizer) (name : string)
    (cache : gmap string Authorizer) : gmap string Authorizer * result unit :=
  match cache !! name with
  | None => (<[name := self]> cache, Ok ())
  | Some original =>
      match merged original self with
      | Ok updated => (<[name := updated]> cache, Ok ())
      | Raise e => (cache, Raise e)
      end
  end.

Definition Authorizer_call (self : Authorizer) (cache : gmap string Authorizer)
    (cargs : list Arg) (kw : UserKw) : result CallOutcome :=
  match cargs with
  | [] =>
      Raise (AssertionError
        "Authorizer needs to be passed function for decoration or objects to authorize.")
  | AObj _ :: _ => b ← allowed self cargs kw; Ok (Decision b)
  | AFunc name :: _ =>
      let (cache', outcome) := register self name cache in
      match outcome with
      | Raise e => Raise e
      | Ok _ =>
          match cache' !! name with
          | Some auth => Ok (Decorated cache' auth)
          | None => Raise (KeyError name)
          end
      end
  end.

(** The wrapper [inner] that decoration returns: [Ok ()] stands for calling
    the wrapped function. *)
Definition inner (auth : Authorizer) (args kwargs_values : list Arg)
    : result unit :=
  let check := args ++ kwargs_values in
  ok ← allowed auth check KwNone;
  if negb ok then Raise Unauthorized else Ok ().

End Plugin.

Arguments user_is_restricted table_key user operation obj : simpl never.
Arguments user_is_allowed table_key default_allowances user operation obj : simpl never.

(** ** The properties as the specification words them *)

(** A credential restricts [operation] on objects of key [key]: it has a
    non-null restrictions map whose entry for the key meets the operation. *)
Definition restricts (key : string) (operation : gset string)
    (cred : Credential) : Prop :=
  ∃ m, restrictions cred = AttrVal m
       ∧ py_set (default [] (m !! key)) ∩ operation ≠ ∅.

(** A credential imposes no allowance limit: no [allowances] attribute, or a
    null one. *)
Definition unlimited (cred : Credential) : Prop :=
  allowances cred = NoAttr ∨ allowances cred = AttrNone.

(** The allowance set a credential contributes for [key], the default set
    when its map has no entry for the key. *)
Definition allowance_set (key : string) (default_ : list string)
    (cred : Credential) : gset string :=
  match allowances cred with
  | AttrVal m => py_set (default default_ (m !! key))
  | _ => ∅
  end.

(** The three tiers of a target whose permission matrix is [perms]. *)
Definition tier_other (operation : gset string)
    (perms : gmap string (list string)) : Prop :=
  operation ⊆ py_set (default [] (perms !! "other")).

Definition tier_owner (user : User) (operation : gset string) (obj : Object)
    (perms : gmap string (list string)) : Prop :=
  (∃ o, owner obj = Some o ∧ user_eqb o user = true)
  ∧ operation ⊆ py_set (default [] (perms !! "owner")).

Definition tier_group (user : User) (operation : gset string) (obj : Object)
    (perms : gmap string (list string)) : Prop :=
  (∃ g gs, group obj = Some g ∧ groups user = Some gs ∧ cred_in g gs = true)
  ∧ operation ⊆ py_set (default [] (perms !! "group")).

(** An argument without a [permissions] attribute. *)
Definition lacks_permissions (arg : Arg) : Prop :=
  match arg with
  | AFunc _ => True
  | AObj o => permissions o = None
  end.

(** A sequence followed by the elements of another, kept a list or a
    tuple as the first is. *)
Definition seq_concat (a b : PySeq) : PySeq :=
  match a with
  | PyList x => PyList (x ++ seq_items b)
  | PyTuple x => PyTuple (x ++ seq_items b)
  end.

(** Both lists or both tuples. *)
Definition same_kind (a b : PySeq) : Prop :=
  match a, b with
  | PyList _, PyList _ => True
  | PyTuple _, PyTuple _ => True
  | _, _ => False
  end.

(** Two authorizers whose corresponding attributes are both lists or both
    tuples. *)
Definition same_kinds (a b : Authorizer) : Prop :=
  same_kind (permission_attr a) (permission_attr b)
  ∧ same_kind (has_role_attr a) (has_role_attr b)
  ∧ same_kind (in_group_attr a) (in_group_attr b)
  ∧ same_kind (model_attr a) (model_attr b).

(** The field-wise concatenation of two authorizers. *)
Definition concat_fields (a b : Authorizer) : Authorizer :=
  {| permission_attr := seq_concat (permission_attr a) (permission_attr b);
     has_role_attr := seq_concat (has_role_attr a) (has_role_attr b);
     in_group_attr := seq_concat (in_group_attr a) (in_group_attr b);
     model_attr := seq_concat (model_attr a) (model_attr b) |}.

(** The message a raised exception carries. *)
Definition exn_msg (e : exn) : string :=
  match e with
  | AssertionError msg => msg
  | TypeError msg => msg
  | KeyError key => key
  | Unauthorized => ""
  end.

(** ** Sample data *)

Module Sample.

(** Keys are class names; the allowances default of [init_app]. *)
Definition key_of_class (cls : string) : string := cls.
Definition std_allowances : list string := ["read"; "update"; "delete"].
Definition anonymous : result (option User) := Ok None.

Definition plain (id : nat) (name : string) : Credential :=
  {| cred_id := id; cred_name := Some name; cred_str := name;
     restrictions := NoAttr; allowances := NoAttr |}.

Definition admin : Credential := plain 1 "admin".
Definition editors : Credential := plain 2 "editors".

(** A role that forbids updating articles. *)
Definition interns : Credential :=
  {| cred_id := 3; cred_name := Some "interns"; cred_str := "interns";
     restrictions := AttrVal {["Article" := ["update"]]};
     allowances := AttrNone |}.

(** A role that only allows reading articles. *)
Definition readers : Credential :=
  {| cred_id := 4; cred_name := Some "readers"; cred_str := "readers";
     restrictions := AttrNone;
     allowances := AttrVal {["Article" := ["read"]]} |}.

(** A credential without a [name], printed as "staff". *)
Definition nameless : Credential :=
  {| cred_id := 5; cred_name := None; cred_str := "staff";
     restrictions := NoAttr; allowances := NoAttr |}.

Definition alice : User :=
  {| user_id := 10; roles := Some [admin]; groups := Some [editors] |}.
(** In the group named "admin", without any role. *)
Definition bob : User :=
  {| user_id := 11; roles := Some []; groups := Some [admin] |}.
Definition carol : User :=
  {| user_id := 12; roles := Some [interns]; groups := None |}.
Definition dave : User :=
  {| user_id := 13; roles := Some [readers]; groups := Some [] |}.
Definition erin : User :=
  {| user_id := 14; roles := None; groups := None |}.

(** An article anyone may read and only its owner may change. *)
Definition article (o : User) : Object :=
  {| obj_class := "Article";
     permissions := Some {["owner" := ["read"; "update"; "delete"];
                           "other" := ["read"]]};
     owner := Some o; group := None |}.

(** A page anyone may read and update. *)
Definition page : Object :=
  {| obj_class := "Page";
     permissions := Some {["other" := ["read"; "update"]]};
     owner := None; group := None |}.

(** A page nobody but its group may touch. *)
Definition draft : Object :=
  {| obj_class := "Page";
     permissions := Some {["group" := ["read"; "update"]]};
     owner := None; group := Some editors |}.

(** A value without a [permissions] attribute. *)
Definition number : Object :=
  {| obj_class := "int"; permissions := None; owner := None; group := None |}.

Definition may (action : string) : Authorizer :=
  Authorizer_init (IScalar action) INone INone INone.
Definition needs_role (role : string) : Authorizer :=
  Authorizer_init INone (IScalar role) INone INone.

Definition verdict (self : Authorizer) (args : list Arg) (kw : UserKw) : result bool :=
  allowed key_of_class std_allowances anonymous self args kw.

End Sample.

(** ** Decorated functions *)

(** A function as [Authorizer.__call__] meets it: a plain function, or the
    [inner] wrapper an earlier decoration returned, which closes over its
    [auth] and the function it wraps. *)
Inductive Callable : Type :=
| Plain (name : string)
| Inner (auth : Authorizer) (func : Callable).

(** [func.__name__]; [@wraps(func)] gives the wrapper the name of the
    function it wraps. *)
Fixpoint callable_name (func : Callable) : string :=
  match func with
  | Plain name => name
  | Inner _ func' => callable_name func'
  end.

(** The authorizers a call goes through, outermost first. *)
Fixpoint wrappers (func : Callable) : list Authorizer :=
  match func with
  | Plain _ => []
  | Inner auth func' => auth :: wrappers func'
  end.

Section Decoration.

Variable table_key : string → string.
Variable default_allowances : list string.
Variable CURRENT_USER : result (option User).

(** The decoration branch of [Authorizer.__call__] on a function: the cache
    it leaves and the wrapper it returns. *)
Definition decorate (self : Authorizer) (cache : gmap string Authorizer)
    (func : Callable) : result (gmap string Authorizer * Callable) :=
  let (cache', outcome) := register self (callable_name func) cache in
  match outcome with
  | Raise e => Raise e
  | Ok _ =>
      match cache' !! callable_name func with
      | Some auth => Ok (cache', Inner auth func)
      | None => Raise (KeyError (callable_name func))
      end
  end.

(** Calling a function with positional arguments [args] and keyword values
    [kwargs_values]: a plain function runs ([Ok ()]); a wrapper runs the body
    of [inner]. *)
Fixpoint invoke (func : Callable) (args kwargs_values : list Arg) : result unit :=
  match func with
  | Plain _ => Ok ()
  | Inner auth func' =>
      let check := args ++ kwargs_values in
      ok ← allowed table_key default_allowances CURRENT_USER auth check KwNone;
      if negb ok then Raise Unauthorized
      else invoke func' args kwargs_values
  end.

End Decoration.

(** Decorating under one name with each authorizer of a list in turn, up to
    the first update that raises. *)
Fixpoint register_all (l : list Authorizer) (name : string)
    (cache : gmap string Authorizer) : gmap string Authorizer * result unit :=
  match l with
  | [] => (cache, Ok ())
  | self :: l' =>
      let (cache', outcome) := register self name cache in
      match outcome with
      | Ok _ => register_all l' name cache'
      | Raise e => (cache', Raise e)
      end
  end.

(** ** Authorize *)

(** A value of [app.config]. *)
Inductive CfgValue : Type :=
| CfgTiers (tiers : gmap string (list string))
| CfgList (l : list string)
| CfgStr (s : string).

(** [d.setdefault(key, value)] *)
Definition setdefault (key : string) (value : CfgValue)
    (config : gmap string CfgValue) : gmap string CfgValue :=
  match config !! key with
  | Some _ => config
  | None => <[key := value]> config
  end.

(** The [current_user] argument of [init_app]: [None], something that is
    not callable, or a callable (given by what calling it yields). *)
Inductive CurrentUserArg : Type :=
| CUNone
| CUNotCallable
| CUCallable (yield : result (option User)).

(** The exception [flask_login_current_user] raises when the import
    fails. *)
Definition flask_login_error : exn :=
  AssertionError
    "Error: Flask-Authorize requires that either Flask-Login is used or that `user` is specified to authorization method".

(** [flask_login_current_user()]: [flask_login] is [None] when the import
    fails, and else Flask-Login's [current_user], an object (that of an
    anonymous user when nobody is logged in) and never [None]. *)
Definition flask_login_current_user (flask_login : option User)
    : result (option User) :=
  match flask_login with
  | Some current_user => Ok (Some current_user)
  | None => Raise flask_login_error
  end.

(** "settings" of [init_app]. *)
Definition init_config (config : gmap string CfgValue) : gmap string CfgValue :=
  let config := setdefault "AUTHORIZE_DEFAULT_PERMISSIONS"
    (CfgTiers {["owner" := ["read"; "update"; "delete"];
                "group" := ["read"; "update"];
                "other" := ["read"]]}) config in
  let config := setdefault "AUTHORIZE_DEFAULT_RESTRICTIONS" (CfgList []) config in
  let config := setdefault "AUTHORIZE_DEFAULT_ALLOWANCES"
    (CfgList ["read"; "update"; "delete"]) config in
  setdefault "AUTHORIZE_MODEL_PARSER" (CfgStr "table") config.

(** The state [init_app] writes: the application's configuration and the
    module's global [CURRENT_USER] ([None] until it is set). *)
Record Setup : Type := {
  config : gmap string CfgValue;
  current_user_global : option (result (option User))
}.

(** [Authorize.init_app(app, current_user)]: the state it leaves, and
    whether it returns or raises. *)
Definition init_app (st : Setup) (current_user : CurrentUserArg)
    : Setup * result unit :=
  let config' := init_config (config st) in
  match current_user with
  | CUNone =>
      ({| config := config'; current_user_global := current_user_global st |},
       Ok ())
  | CUNotCallable =>
      ({| config := config'; current_user_global := current_user_global st |},
       Raise (AssertionError "Error: `current_user` input must be callable."))
  | CUCallable yield =>
      ({| config := config'; current_user_global := Some yield |}, Ok ())
  end.

(** [Authorize(app, current_user)]: [app] is the configuration of the
    application passed, if one is; [current_user] defaults to
    [flask_login_current_user]; [global] is [CURRENT_USER] before the call.
    The result is the application's configuration, [CURRENT_USER] after the
    call, and whether the constructor returns or raises. *)
Definition Authorize_new (flask_login : option User)
    (app : option (gmap string CfgValue)) (current_user : option CurrentUserArg)
    (global : option (result (option User)))
    : option (gmap string CfgValue) * option (result (option User)) * result unit :=
  let current_user :=
    default (CUCallable (flask_login_current_user flask_login)) current_user in
  match app with
  | Some config0 =>
      let (st, outcome) :=
        init_app {| config := config0; current_user_global := global |}
          current_user in
      (Some (config st), current_user_global st, outcome)
  | None => (None, global, Ok ())
  end.

(** [CURRENT_USER()] *)
Definition call_global (global : option (result (option User)))
    : result (option User) :=
  match global with
  | Some yield => yield
  | None => Raise (TypeError "'NoneType' object is not callable")
  end.

(** The authorizers [Authorize] hands out. *)
Definition Authorize_delete : Authorizer := Authorizer_init (IScalar "delete") INone INone INone.
Definition Authorize_read : Authorizer := Authorizer_init (IScalar "read") INone INone INone.
Definition Authorize_update : Authorizer := Authorizer_init (IScalar "update") INone INone INone.
Definition Authorize_create (model' : InitArg) : Authorizer :=
  Authorizer_init (IScalar "create") INone INone model'.
Definition Authorize_has_role (role : InitArg) : Authorizer :=
  Authorizer_init INone role INone INone.
Definition Authorize_in_group (group' : InitArg) : Authorizer :=
  Authorizer_init INone INone group' INone.

(** ** More sample data *)

Module Views.

(** Two subjects with the same two credentials, held once each as roles by
    the one, and in another order, one of them both as role and as group, by
    the other. *)
Definition frank : User :=
  {| user_id := 15; roles := Some [Sample.interns; Sample.readers]; groups := None |}.
Definition grace : User :=
  {| user_id := 16; roles := Some [Sample.readers; Sample.interns];
     groups := Some [Sample.interns] |}.

(** Alice is logged in. *)
Definition alice_logged_in : result (option User) := Ok (Some Sample.alice).

(** A view without arguments, and the docstring's [update_user]. *)
Definition index : Callable := Plain "index".
Definition update_user : Callable := Plain "update_user".

(** [authorize.has_role(('admin', 'staff'))] *)
Definition admin_or_staff : Authorizer :=
  Authorize_has_role (ITuple ["admin"; "staff"]).

Definition read_and_update : Authorizer :=
  Authorizer_init (IList ["read"; "update"]) INone INone INone.
Definition update_and_read_twice : Authorizer :=
  Authorizer_init (IList ["update"; "read"; "read"]) INone INone INone.

End Views.

(** ** Sets and the permission test *)

Lemma py_set_gset (X : gset string) : py_set X = X.
Proof. unfold py_set; simpl. apply list_to_set_elements_L. Qed.

Lemma elem_of_py_set_list (l : list string) (x : string) : x ∈ py_set l ↔ x ∈ l.
Proof. unfold py_set; simpl. apply elem_of_list_to_set. Qed.

Lemma py_set_app (l1 l2 : list string) : py_set (l1 ++ l2) = py_set l1 ∪ py_set l2.
Proof. unfold py_set; simpl. apply list_to_set_app_L. Qed.

(** An intersection as large as one of its sides is that side. *)
Lemma size_inter_l (X Y : gset string) : size (X ∩ Y) = size X ↔ X ⊆ Y.
Proof.
  split.
  - intros Hsize.
    assert (X ∩ Y = X) as Heq.
    { apply set_subseteq_size_eq; [set_solver | lia]. }
    set_solver.
  - intros Hsub. f_equal. set_solver.
Qed.

Lemma size_inter_r (X Y : gset string) : size (Y ∩ X) = size X ↔ X ⊆ Y.
Proof.
  rewrite <- size_inter_l.
  replace (Y ∩ X) with (X ∩ Y) by set_solver. reflexivity.
Qed.

(** With a set as [expected], as in every call of [allowed], the test is
    inclusion. *)
Lemma has_permission_set `{PyColl A} (operation : gset string) (actual : A) :
  has_permission operation actual = true ↔ operation ⊆ py_set actual.
Proof.
  unfold has_permission. rewrite bool_decide_eq_true, py_set_gset.
  simpl. apply size_inter_l.
Qed.

Lemma has_permission_set_false `{PyColl A} (operation : gset string) (actual : A) :
  has_permission operation actual = false ↔ ¬ operation ⊆ py_set actual.
Proof.
  rewrite <- has_permission_set. destruct (has_permission operation actual); naive_solver.
Qed.

(** On a list, [len] counts repetitions and [set] does not: the test is
    inclusion only for an [expected] without repetition, which is why
    [allowed] passes [set(self.permission)]. *)
Lemma has_permission_repeated : has_permission ["read"; "read"] ["read"] = false.
Proof. vm_compute. reflexivity. Qed.

(** C8 — Subset exactness of the permission test: on two sets,
    [has_permission expected actual] holds exactly when every element of
    [expected] is in [actual]; {read, update} against {read} fails, {read}
    against {read, update} passes, and the empty set passes against
    anything. *)
Theorem has_permission_exact :
  (∀ expected actual : gset string,
      has_permission expected actual = true ↔ ∀ x, x ∈ expected → x ∈ actual)
  ∧ has_permission ({["read"; "update"]} : gset string) ({["read"]} : gset string) = false
  ∧ has_permission ({["read"]} : gset string) ({["read"; "update"]} : gset string) = true
  ∧ (∀ actual : gset string, has_permission (∅ : gset string) actual = true).
Proof.
  split; [|split; [|split]].
  - intros expected actual. rewrite has_permission_set, py_set_gset.
    reflexivity.
  - apply has_permission_set_false. rewrite py_set_gset. set_solver.
  - apply has_permission_set. rewrite py_set_gset. set_solver.
  - intros actual. apply has_permission_set. set_solver.
Qed.

(** ** Role and group bypass *)

Lemma any_check_in_true (creds : list Credential) (names : list string) :
  any_check_in creds names = true ↔ ∃ c, c ∈ creds ∧ check_name c ∈ names.
Proof.
  induction creds as [|c creds IH]; simpl.
  - split; [discriminate|]. intros (c & Hc & _). inversion Hc.
  - case_bool_decide as Hin.
    + split; [|reflexivity]. intros _. exists c. split; [left | exact Hin].
    + rewrite IH. split.
      * intros (c' & Hc' & Hn). exists c'. split; [by right | exact Hn].
      * intros (c' & Hc' & Hn). apply elem_of_cons in Hc' as [-> | Hc'].
        -- contradiction.
        -- exists c'. by split.
Qed.

Lemma user_has_role_true (user : User) (names : list string) :
  user_has_role user names = true
  ↔ ∃ rs r, roles user = Some rs ∧ r ∈ rs ∧ check_name r ∈ names.
Proof.
  unfold user_has_role. destruct (roles user) as [rs|].
  - rewrite any_check_in_true. split.
    + intros (r & Hr & Hn). by exists rs, r.
    + intros (rs' & r & [= <-] & Hr & Hn). by exists r.
  - split; [discriminate|]. by intros (rs & r & [=] & _).
Qed.

Lemma user_in_group_true (user : User) (names : list string) :
  user_in_group user names = true
  ↔ ∃ gs g, groups user = Some gs ∧ g ∈ gs ∧ check_name g ∈ names.
Proof.
  unfold user_in_group. destruct (groups user) as [gs|].
  - rewrite any_check_in_true. split.
    + intros (g & Hg & Hn). by exists gs, g.
    + intros (gs' & g & [= <-] & Hg & Hn). by exists g.
  - split; [discriminate|]. by intros (gs & g & [=] & _).
Qed.

(** C10 — Credential-name fallback: the role check succeeds exactly when the
    subject has a [roles] collection holding a role whose [name] — or, for a
    role without a [name] attribute, whose [str] — is among the requirement's
    roles, and likewise the group check over the [groups] collection; a role
    with a [name] is matched by that name only, one without by its string
    representation; a subject without the collection fails the check. *)
Theorem credential_name_fallback :
  (∀ user names, user_has_role user names = true
     ↔ ∃ rs r, roles user = Some rs ∧ r ∈ rs ∧ check_name r ∈ names)
  ∧ (∀ user names, user_in_group user names = true
     ↔ ∃ gs g, groups user = Some gs ∧ g ∈ gs ∧ check_name g ∈ names)
  ∧ (∀ cred name, cred_name cred = Some name → check_name cred = name)
  ∧ (∀ cred, cred_name cred = None → check_name cred = cred_str cred)
  ∧ (∀ user names, roles user = None → user_has_role user names = false)
  ∧ (∀ user names, groups user = None → user_in_group user names = false).
Proof.
  split; [exact user_has_role_true|].
  split; [exact user_in_group_true|].
  split; [|split; [|split]].
  - intros cred name Hname. unfold check_name. by rewrite Hname.
  - intros cred Hname. unfold check_name. by rewrite Hname.
  - intros user names Hno. unfold user_has_role. by rewrite Hno.
  - intros user names Hno. unfold user_in_group. by rewrite Hno.
Qed.

(** ** Restrictions and allowances *)

Lemma any_restricted_true key operation creds :
  any_restricted key operation creds = true
  ↔ ∃ c, c ∈ creds ∧ restricts key operation c.
Proof.
  induction creds as [|c creds IH]; simpl.
  - split; [discriminate|]. intros (c & Hc & _). inversion Hc.
  - assert ((∃ c', c' ∈ c :: creds ∧ restricts key operation c')
            ↔ restricts key operation c
              ∨ ∃ c', c' ∈ creds ∧ restricts key operation c') as ->.
    { split.
      - intros (c' & [-> | Hc']%elem_of_cons & Hr); [by left | right; eauto].
      - intros [Hr | (c' & Hc' & Hr)]; [exists c | exists c'];
          (split; [|done]); [left | by right]. }
    rewrite <- IH. unfold restricts.
    destruct (restrictions c) as [| |m].
    + split; [by right|]. by intros [(m & [=] & _) | ?].
    + split; [by right|]. by intros [(m & [=] & _) | ?].
    + destruct (size (py_set (default [] (m !! key)) ∩ operation) =? 0)%nat eqn:E; simpl.
      * apply Nat.eqb_eq, size_empty_iff, leibniz_equiv in E.
        split; [by right|]. intros [(m' & [= <-] & Hne) | ?]; [|done].
        by destruct Hne.
      * apply Nat.eqb_neq in E. split; [|done]. intros _. left.
        exists m. split; [done|]. intros Hemp. apply E.
        by rewrite Hemp, size_empty.
Qed.

Lemma gather_allowances_None key default_ creds acc :
  gather_allowances key default_ creds acc = None
  ↔ ∃ c, c ∈ creds ∧ unlimited c.
Proof.
  revert acc. induction creds as [|c creds IH]; intros acc; simpl.
  - split; [discriminate|]. intros (c & Hc & _). inversion Hc.
  - unfold unlimited at 1.
    destruct (allowances c) as [| |m] eqn:E.
    + split; [|done]. intros _. exists c. split; [left | by left].
    + split; [|done]. intros _. exists c. split; [left | by right].
    + rewrite IH. split.
      * intros (c' & Hc' & Hu). exists c'. split; [by right | done].
      * intros (c' & [-> | Hc']%elem_of_cons & Hu).
        -- destruct Hu as [Hu | Hu]; congruence.
        -- by exists c'.
Qed.

Lemma gather_allowances_Some key default_ creds acc l :
  gather_allowances key default_ creds acc = Some l →
  py_set l = py_set acc ∪ ⋃ (allowance_set key default_ <$> creds).
Proof.
  revert acc. induction creds as [|c creds IH]; intros acc; simpl.
  - intros [= <-]. set_solver.
  - unfold allowance_set at 1.
    destruct (allowances c) as [| |m]; [discriminate | discriminate |].
    intros Hg. rewrite (IH _ Hg), py_set_app. set_solver.
Qed.

Section Decision.

Variable table_key : string → string.
Variable default_allowances : list string.
Variable CURRENT_USER : result (option User).

(** The functions of the plugin at these parameters. *)
Abbreviation allowed := (allowed table_key default_allowances CURRENT_USER).
Abbreviation resolve_user := (resolve_user CURRENT_USER).
Abbreviation check_arg := (check_arg table_key default_allowances).
Abbreviation check_args := (check_args table_key default_allowances).
Abbreviation user_is_restricted := (user_is_restricted table_key).
Abbreviation user_is_allowed := (user_is_allowed table_key default_allowances).
Abbreviation Authorizer_call :=
  (Authorizer_call table_key default_allowances CURRENT_USER).

(** What [allowed] does once the subject is known. *)
Lemma allowed_resolved self args kw user :
  resolve_user kw = Ok (Some user) →
  allowed self args kw =
    Ok (user_has_role user (has_role self)
        || user_in_group user (in_group self)
        || (negb (length (permission self) =? 0)%nat
            && check_args user (py_set (permission self)) args)).
Proof.
  intros Hres. unfold allowed. rewrite Hres. simpl.
  assert (∀ u names, user_has_role u names = true → (length names =? 0)%nat = false) as Hr.
  { intros u names (rs & r & _ & _ & Hin)%user_has_role_true.
    destruct names; [inversion Hin | reflexivity]. }
  assert (∀ u names, user_in_group u names = true → (length names =? 0)%nat = false) as Hg.
  { intros u names (gs & g & _ & _ & Hin)%user_in_group_true.
    destruct names; [inversion Hin | reflexivity]. }
  destruct (user_has_role user (has_role self)) eqn:E1.
  { by rewrite (Hr _ _ E1). }
  rewrite andb_false_r.
  destruct (user_in_group user (in_group self)) eqn:E2.
  { by rewrite (Hg _ _ E2). }
  rewrite andb_false_r. simpl.
  by destruct (length (permission self) =? 0)%nat.
Qed.

(** C1 (amended) — Role bypass precedence: if the subject holds a role, a
    member of its [roles] collection, whose name is among the
    requirement's roles, the decision is allow, whatever the requirement's
    permissions and whatever targets are supplied, none included. *)
Theorem role_bypass self args kw user rs r name :
  resolve_user kw = Ok (Some user) →
  roles user = Some rs →
  r ∈ rs →
  cred_name r = Some name →
  name ∈ has_role self →
  allowed self args kw = Ok true.
Proof.
  intros Hres Hroles Hr Hname Hin.
  rewrite (allowed_resolved _ _ _ _ Hres).
  assert (user_has_role user (has_role self) = true) as ->; [|done].
  apply user_has_role_true. exists rs, r. repeat split; try done.
  unfold check_name. by rewrite Hname.
Qed.

(** C6 — Anonymous deny: when no subject is resolved, the decision is deny,
    returned as a value and not raised, for every requirement and every
    list of targets. *)
Theorem anonymous_deny self args kw :
  resolve_user kw = Ok None →
  allowed self args kw = Ok false.
Proof. intros Hres. unfold allowed. by rewrite Hres. Qed.

(** When [user_is_restricted] answers yes. *)
Lemma user_is_restricted_true user operation obj :
  user_is_restricted user operation obj = true
  ↔ ∃ c, c ∈ credentials user
         ∧ restricts (table_key (obj_class obj)) operation c.
Proof.
  unfold user_is_restricted.
  destruct (credentials user) as [|c creds] eqn:E; simpl length.
  - simpl. split; [discriminate|]. intros (c & Hc & _). inversion Hc.
  - change (S (length creds) =? 0)%nat with false. cbv iota.
    apply any_restricted_true.
Qed.

(** When [user_is_allowed] answers yes. *)
Lemma user_is_allowed_true user operation obj :
  user_is_allowed user operation obj = true
  ↔ credentials user = []
    ∨ (∃ c, c ∈ credentials user ∧ unlimited c)
    ∨ operation ⊆ ⋃ (allowance_set (table_key (obj_class obj))
                        default_allowances <$> credentials user).
Proof.
  unfold user_is_allowed.
  destruct (credentials user) as [|c creds] eqn:E; simpl length.
  - simpl. split; [by left | done].
  - change (S (length creds) =? 0)%nat with false. cbv iota.
    destruct (gather_allowances _ _ (c :: creds) []) as [l|] eqn:G.
    + pose proof (gather_allowances_Some _ _ _ _ _ G) as Hl.
      assert (¬ ∃ c', c' ∈ c :: creds ∧ unlimited c') as Hnone.
      { rewrite <- (gather_allowances_None (table_key (obj_class obj))
                      default_allowances _ []). by rewrite G. }
      assert (py_set l = ⋃ (allowance_set (table_key (obj_class obj))
                              default_allowances <$> c :: creds)) as Hset.
      { rewrite Hl. unfold py_set at 1; simpl. set_solver. }
      rewrite <- Hset.
      destruct (size (py_set l ∩ operation) =? size operation)%nat eqn:S.
      * apply Nat.eqb_eq, size_inter_r in S. split; [|done].
        intros _. by right; right.
      * apply Nat.eqb_neq in S. rewrite size_inter_r in S.
        split; [discriminate|]. intros [? | [? | ?]]; done.
    + split; [|done]. intros _. right; left.
      by apply (gather_allowances_None (table_key (obj_class obj))
                  default_allowances (c :: creds) []).
Qed.

(** ** The loop over the targets *)

Lemma check_args_skip user operation pre rest :
  (∀ a, a ∈ pre → check_arg user operation a = None) →
  check_args user operation (pre ++ rest) = check_args user operation rest.
Proof.
  induction pre as [|a pre IH]; intros Hpre; simpl; [done|].
  rewrite (Hpre a) by left. apply IH. intros a' Ha'. apply Hpre. by right.
Qed.

Lemma check_args_deny user operation pre arg post :
  (∀ a, a ∈ pre → check_arg user operation a ≠ Some true) →
  check_arg user operation arg = Some false →
  check_args user operation (pre ++ arg :: post) = false.
Proof.
  intros Hpre Harg. induction pre as [|a pre IH]; simpl.
  - by rewrite Harg.
  - pose proof (Hpre a ltac:(left)) as Ha.
    destruct (check_arg user operation a) as [[|]|]; [done | done |].
    apply IH. intros a' Ha'. apply Hpre. by right.
Qed.

Lemma check_arg_restricted user operation obj perms :
  permissions obj = Some perms →
  user_is_restricted user operation obj = true →
  check_arg user operation (AObj obj) = Some false.
Proof. intros Hp Hr. unfold check_arg. by rewrite Hp, Hr. Qed.

Lemma check_arg_disallowed user operation obj perms :
  permissions obj = Some perms →
  user_is_allowed user operation obj = false →
  check_arg user operation (AObj obj) = Some false.
Proof.
  intros Hp Ha. unfold check_arg. rewrite Hp, Ha.
  by destruct (user_is_restricted user operation obj).
Qed.

Lemma owner_test user operation obj perms :
  match owner obj with
  | Some o => user_eqb o user
              && has_permission operation (default [] (perms !! "owner"))
  | None => false
  end = true ↔ tier_owner user operation obj perms.
Proof.
  unfold tier_owner. destruct (owner obj) as [o|].
  - rewrite andb_true_iff, has_permission_set. split.
    + intros [Ho Hs]. split; [by exists o | done].
    + intros [(o' & [= <-] & Ho) Hs]. done.
  - split; [discriminate|]. by intros [(o & [=] & _) _].
Qed.

Lemma group_test user operation obj perms :
  match group obj, groups user with
  | Some g, Some gs =>
      cred_in g gs && has_permission operation (default [] (perms !! "group"))
  | _, _ => false
  end = true ↔ tier_group user operation obj perms.
Proof.
  unfold tier_group. destruct (group obj) as [g|], (groups user) as [gs|].
  - rewrite andb_true_iff, has_permission_set. split.
    + intros [Hg Hs]. split; [by exists g, gs | done].
    + intros [(g' & gs' & [= <-] & [= <-] & Hg) Hs]. done.
  - split; [discriminate|]. by intros [(g' & gs' & _ & [=] & _) _].
  - split; [discriminate|]. by intros [(g' & gs' & [=] & _) _].
  - split; [discriminate|]. by intros [(g' & gs' & [=] & _) _].
Qed.

(** A target that passes the restriction and allowance checks is granted by
    the first tier that holds, and passed over when none does. *)
Lemma check_arg_tiers user operation obj perms :
  permissions obj = Some perms →
  user_is_restricted user operation obj = false →
  user_is_allowed user operation obj = true →
  (tier_other operation perms ∨ tier_owner user operation obj perms
   ∨ tier_group user operation obj perms →
   check_arg user operation (AObj obj) = Some true)
  ∧ (¬ tier_other operation perms → ¬ tier_owner user operation obj perms →
     ¬ tier_group user operation obj perms →
     check_arg user operation (AObj obj) = None).
Proof.
  intros Hp Hr Ha. unfold check_arg. rewrite Hp, Hr, Ha. cbn [negb].
  pose proof (has_permission_set operation (default [] (perms !! "other"))) as Hother.
  pose proof (owner_test user operation obj perms) as Howner.
  pose proof (group_test user operation obj perms) as Hgroup.
  fold (tier_other operation perms) in Hother.
  destruct (has_permission operation (default [] (perms !! "other"))).
  { split; [done|]. intros Hn. destruct Hn. by apply Hother. }
  destruct (match owner obj with Some _ => _ | None => _ end).
  { split; [done|]. intros _ Hn. destruct Hn. by apply Howner. }
  destruct (match group obj with Some _ => _ | None => _ end).
  { split; [done|]. intros _ _ Hn. destruct Hn. by apply Hgroup. }
  split; [|done].
  intros [H | [H | H]]; [apply Hother in H | apply Howner in H | apply Hgroup in H];
    discriminate.
Qed.

(** Without a bypass the decision is the loop's. *)
Lemma allowed_no_bypass self args kw user :
  resolve_user kw = Ok (Some user) →
  user_has_role user (has_role self) = false →
  user_in_group user (in_group self) = false →
  allowed self args kw =
    Ok (negb (length (permission self) =? 0)%nat
        && check_args user (py_set (permission self)) args).
Proof.
  intros Hres Hr Hg. by rewrite (allowed_resolved _ _ _ _ Hres), Hr, Hg.
Qed.

(** The decision reads its targets through the loop only. *)
Lemma allowed_ext self args1 args2 kw :
  (∀ user operation,
      check_args user operation args1 = check_args user operation args2) →
  allowed self args1 kw = allowed self args2 kw.
Proof.
  intros Hext. unfold allowed.
  destruct (resolve_user kw) as [[user|]|e]; simpl; [|done|done].
  by rewrite Hext.
Qed.

(** C2 (amended) — Restriction short-circuit: when no role or group bypass
    applies and no earlier target yields allow, a target with a [permissions]
    attribute on which some credential of the subject restricts the operation
    makes the whole decision deny, whatever targets follow it. *)
Theorem restriction_short_circuit self kw user pre obj perms post c :
  resolve_user kw = Ok (Some user) →
  user_has_role user (has_role self) = false →
  user_in_group user (in_group self) = false →
  (∀ a, a ∈ pre → check_arg user (py_set (permission self)) a ≠ Some true) →
  permissions obj = Some perms →
  c ∈ credentials user →
  restricts (table_key (obj_class obj)) (py_set (permission self)) c →
  allowed self (pre ++ AObj obj :: post) kw = Ok false.
Proof.
  intros Hres Hr Hg Hpre Hp Hc Hrestr.
  rewrite (allowed_no_bypass _ _ _ _ Hres Hr Hg).
  rewrite (check_args_deny _ _ _ _ _ Hpre); [by rewrite andb_false_r|].
  apply (check_arg_restricted _ _ _ _ Hp).
  apply user_is_restricted_true. by exists c.
Qed.

(** C3 — Allowance check: the check on a target is passed exactly when the
    subject has no credential, or some credential has no [allowances]
    attribute or a null one, or the operation is included in the union, over
    all credentials, of the set found under the target's key, the default set
    standing in where a credential's map has no entry; a target with a
    [permissions] attribute that fails the check makes the loop, and with it
    the decision, deny, whatever targets follow. *)
Theorem allowance_check :
  (∀ user operation obj,
      user_is_allowed user operation obj = true
      ↔ credentials user = []
        ∨ (∃ c, c ∈ credentials user ∧ unlimited c)
        ∨ operation ⊆ ⋃ (allowance_set (table_key (obj_class obj))
                            default_allowances <$> credentials user))
  ∧ (∀ user operation obj perms rest,
      permissions obj = Some perms →
      user_is_allowed user operation obj = false →
      check_args user operation (AObj obj :: rest) = false)
  ∧ (∀ self kw user pre obj perms post,
      resolve_user kw = Ok (Some user) →
      user_has_role user (has_role self) = false →
      user_in_group user (in_group self) = false →
      (∀ a, a ∈ pre → check_arg user (py_set (permission self)) a ≠ Some true) →
      permissions obj = Some perms →
      user_is_allowed user (py_set (permission self)) obj = false →
      allowed self (pre ++ AObj obj :: post) kw = Ok false).
Proof.
  split; [exact user_is_allowed_true|]. split.
  - intros user operation obj perms rest Hp Ha.
    apply (check_args_deny user operation [] (AObj obj) rest).
    + intros a Ha'. inversion Ha'.
    + by apply (check_arg_disallowed _ _ _ perms).
  - intros self kw user pre obj perms post Hres Hr Hg Hpre Hp Ha.
    rewrite (allowed_no_bypass _ _ _ _ Hres Hr Hg).
    rewrite (check_args_deny _ _ _ _ _ Hpre); [by rewrite andb_false_r|].
    by apply (check_arg_disallowed _ _ _ perms).
Qed.

(** C4 — Tier evaluation and fallthrough: once the loop runs (a subject, no
    bypass, a non-empty permission list), a target with a [permissions]
    attribute that passes the restriction and allowance checks yields allow
    as soon as the other tier, the owner tier (the target has an owner equal
    to the subject) or the group tier (the target has a group found among the
    subject's groups) includes the operation; when none does, the decision is
    that of the remaining targets; and when every target is passed over, it
    is deny. *)
Theorem tier_evaluation self kw user :
  resolve_user kw = Ok (Some user) →
  user_has_role user (has_role self) = false →
  user_in_group user (in_group self) = false →
  permission self ≠ [] →
  (∀ obj perms rest,
      permissions obj = Some perms →
      user_is_restricted user (py_set (permission self)) obj = false →
      user_is_allowed user (py_set (permission self)) obj = true →
      (tier_other (py_set (permission self)) perms
       ∨ tier_owner user (py_set (permission self)) obj perms
       ∨ tier_group user (py_set (permission self)) obj perms →
       allowed self (AObj obj :: rest) kw = Ok true)
      ∧ (¬ tier_other (py_set (permission self)) perms →
         ¬ tier_owner user (py_set (permission self)) obj perms →
         ¬ tier_group user (py_set (permission self)) obj perms →
         allowed self (AObj obj :: rest) kw = allowed self rest kw))
  ∧ (∀ args,
      (∀ a, a ∈ args → check_arg user (py_set (permission self)) a = None) →
      allowed self args kw = Ok false).
Proof.
  intros Hres Hr Hg Hperm.
  assert ((length (permission self) =? 0)%nat = false) as Hlen.
  { destruct (permission self); [done | reflexivity]. }
  split.
  - intros obj perms rest Hp Hnr Ha.
    destruct (check_arg_tiers _ _ _ _ Hp Hnr Ha) as [Hyes Hno].
    rewrite !(allowed_no_bypass _ _ _ _ Hres Hr Hg), Hlen. cbn [negb andb].
    split.
    + intros Ht. cbn [check_args]. by rewrite (Hyes Ht).
    + intros H1 H2 H3. cbn [check_args]. by rewrite (Hno H1 H2 H3).
  - intros args Hnone.
    rewrite (allowed_no_bypass _ _ _ _ Hres Hr Hg), Hlen. cbn [negb andb].
    rewrite <- (app_nil_r args), (check_args_skip _ _ _ _ Hnone). done.
Qed.

(** C7 — Targets without a [permissions] attribute are transparent: the loop
    passes over such a target whatever the subject and the operation, and
    the decision is the same with it and without it, wherever it stands among
    the targets. *)
Theorem no_permissions_transparent self pre arg post kw :
  lacks_permissions arg →
  (∀ user operation, check_arg user operation arg = None)
  ∧ allowed self (pre ++ arg :: post) kw = allowed self (pre ++ post) kw.
Proof.
  intros Hp.
  assert (∀ user operation, check_arg user operation arg = None) as Hskip.
  { intros user operation. destruct arg as [name|obj]; [done|].
    simpl in Hp. unfold check_arg. by rewrite Hp. }
  split; [exact Hskip|].
  apply allowed_ext. intros user operation.
  induction pre as [|a pre IH]; cbn [app check_args].
  - by rewrite Hskip.
  - by rewrite IH.
Qed.

(** ** Decoration and invocation *)

Lemma seq_items_concat a b :
  seq_items (seq_concat a b) = seq_items a ++ seq_items b.
Proof. by destruct a. Qed.

Lemma concat_fields_items a b :
  permission (concat_fields a b) = permission a ++ permission b
  ∧ has_role (concat_fields a b) = has_role a ++ has_role b
  ∧ in_group (concat_fields a b) = in_group a ++ in_group b
  ∧ model (concat_fields a b) = model a ++ model b.
Proof.
  unfold permission, has_role, in_group, model. simpl.
  by rewrite !seq_items_concat.
Qed.

Lemma listify_seq_arg s : listify (seq_arg s) = s.
Proof. by destruct s. Qed.

(** The update succeeds exactly on authorizers whose attributes agree in
    kind, and raises a [TypeError] otherwise. *)
Lemma merged_cases original self :
  (same_kinds original self
   ∧ merged original self = Ok (concat_fields original self))
  ∨ (¬ same_kinds original self
     ∧ ∃ msg, merged original self = Raise (TypeError msg)).
Proof.
  destruct original as [[p|p] [r|r] [g|g] [m|m]],
           self as [[p'|p'] [r'|r'] [g'|g'] [m'|m']];
    unfold merged, same_kinds, concat_fields; simpl;
    first [ by left | right; split; [tauto | by eexists] ].
Qed.

Lemma register_unseen self name (cache : gmap string Authorizer) :
  cache !! name = None →
  register self name cache = (<[name := self]> cache, Ok ()).
Proof. intros Hn. unfold register. by rewrite Hn. Qed.

Lemma register_seen original self name (cache : gmap string Authorizer) :
  cache !! name = Some original →
  same_kinds original self →
  register self name cache
  = (<[name := concat_fields original self]> cache, Ok ()).
Proof.
  intros Hs Hk. unfold register. rewrite Hs.
  destruct (merged_cases original self) as [[_ ->] | [Hno _]]; done.
Qed.

Lemma register_mixed original self name (cache : gmap string Authorizer) :
  cache !! name = Some original →
  ¬ same_kinds original self →
  ∃ msg, register self name cache = (cache, Raise (TypeError msg)).
Proof.
  intros Hs Hk. unfold register. rewrite Hs.
  destruct (merged_cases original self) as [[Hyes _] | [_ [msg ->]]];
    [done | by exists msg].
Qed.

(** On authorizers whose attributes agree in kind — all lists, as the
    constructor makes them from [None], a scalar or a list — decorating
    under a name not yet in the cache with [a] and then with [b] leaves
    under that name the authorizer whose four fields are those of [a]
    followed by those of [b], and the second decoration uses it. *)
Lemma register_concat a b name (cache : gmap string Authorizer) cargs kw :
  cache !! name = None →
  same_kinds a b →
  (register a name cache).1 !! name = Some a
  ∧ (register b name (register a name cache).1).1 !! name
    = Some (concat_fields a b)
  ∧ Authorizer_call b (register a name cache).1 (AFunc name :: cargs) kw
    = Ok (Decorated (register b name (register a name cache).1).1
                    (concat_fields a b))
  ∧ permission (concat_fields a b) = permission a ++ permission b
  ∧ has_role (concat_fields a b) = has_role a ++ has_role b
  ∧ in_group (concat_fields a b) = in_group a ++ in_group b
  ∧ model (concat_fields a b) = model a ++ model b.
Proof.
  intros Hfresh Hk.
  rewrite (register_unseen a name cache Hfresh). simpl.
  assert (<[name := a]> cache !! name = Some a) as Ha by apply lookup_insert_eq.
  split; [done|].
  unfold Authorizer_call.
  rewrite (register_seen a b name _ Ha Hk). simpl.
  rewrite lookup_insert_eq.
  split; [done|]. split; [done|]. apply concat_fields_items.
Qed.

(** Decoration returns the entry it has just stored, or raises the
    [TypeError] of the update; the lookup that follows the update never
    fails. *)
Lemma decorate_ok self (cache : gmap string Authorizer) name cargs kw :
  (∃ auth,
      (register self name cache).1 !! name = Some auth
      ∧ Authorizer_call self cache (AFunc name :: cargs) kw
        = Ok (Decorated (register self name cache).1 auth))
  ∨ (∃ msg,
      Authorizer_call self cache (AFunc name :: cargs) kw
      = Raise (TypeError msg)).
Proof.
  unfold Authorizer_call.
  destruct (cache !! name) as [original|] eqn:E.
  - destruct (merged_cases original self) as [[Hk _] | [Hk _]].
    + rewrite (register_seen _ _ _ _ E Hk). simpl. rewrite lookup_insert_eq.
      left. eauto.
    + destruct (register_mixed _ _ _ _ E Hk) as [msg ->]. right. eauto.
  - rewrite (register_unseen _ _ _ E). simpl. rewrite lookup_insert_eq.
    left. eauto.
Qed.

(** The wrapper refuses the call exactly when the decision is deny. *)
Lemma inner_unauthorized auth args kwargs_values :
  allowed auth (args ++ kwargs_values) KwNone = Ok false →
  inner table_key default_allowances CURRENT_USER auth args kwargs_values
  = Raise Unauthorized.
Proof. intros Hdeny. unfold inner. by rewrite Hdeny. Qed.

(** C9 (amended) — Zero-argument invocation: calling an authorizer with no
    positional argument raises an [AssertionError] whose message is
    "Authorizer needs to be passed function for decoration or objects to
    authorize.", and returns no decision. *)
Theorem call_without_arguments self (cache : gmap string Authorizer) kw :
  Authorizer_call self cache [] kw
  = Raise (AssertionError
      "Authorizer needs to be passed function for decoration or objects to authorize.").
Proof. reflexivity. Qed.

End Decision.

(** ** The properties on the sample data *)

Import Sample.

(** Alice holds the role "admin": she passes a requirement for that role
    with no target at all. *)
Lemma role_bypass_alice : verdict (needs_role "admin") [] (KwUser alice) = Ok true.
Proof.
  apply (role_bypass key_of_class std_allowances anonymous
           (needs_role "admin") [] (KwUser alice) alice [admin] admin "admin").
  - reflexivity.
  - reflexivity.
  - apply list_elem_of_here.
  - reflexivity.
  - apply list_elem_of_here.
Defined.

(** C1 as worded fails: Bob holds a credential named "admin", a group and not
    a role, and is denied by a requirement for the role "admin". *)
Lemma role_bypass_group_named_like_role :
  has_role (needs_role "admin") ≠ []
  ∧ admin ∈ credentials bob
  ∧ cred_name admin = Some "admin"
  ∧ "admin" ∈ has_role (needs_role "admin")
  ∧ verdict (needs_role "admin") [] (KwUser bob) = Ok false.
Proof.
  split; [discriminate|]. split; [apply list_elem_of_here|].
  split; [reflexivity|]. split; [apply list_elem_of_here|].
  vm_compute. reflexivity.
Qed.

(** With nobody logged in, reading a page everyone may read is denied. *)
Lemma anonymous_deny_page : verdict (may "read") [AObj page] KwNone = Ok false.
Proof.
  apply (anonymous_deny key_of_class std_allowances anonymous
           (may "read") [AObj page] KwNone).
  reflexivity.
Defined.

Lemma interns_restrict_update :
  restricts (key_of_class (obj_class (article erin)))
    (py_set (permission (may "update"))) interns.
Proof.
  exists {["Article" := ["update"]]}. split; [reflexivity|].
  intros Hempty.
  assert ("update" ∈ (∅ : gset string)) as Hin; [|by apply not_elem_of_empty in Hin].
  rewrite <- Hempty. vm_compute. reflexivity.
Defined.

(** Carol's role forbids updating articles: after a draft that grants her
    nothing, the article denies the call although the page that follows
    would allow it. *)
Lemma restriction_short_circuit_carol :
  verdict (may "update") ([AObj draft] ++ AObj (article erin) :: [AObj page])
    (KwUser carol) = Ok false.
Proof.
  eapply (restriction_short_circuit key_of_class std_allowances anonymous
            (may "update") (KwUser carol) carol [AObj draft] (article erin)
            _ [AObj page] interns).
  - reflexivity.
  - reflexivity.
  - reflexivity.
  - intros a ->%list_elem_of_singleton. vm_compute. discriminate.
  - reflexivity.
  - apply list_elem_of_here.
  - exact interns_restrict_update.
Defined.

(** C2 as worded fails: the same restricted article, placed after the page,
    is never reached and the call is allowed. *)
Lemma restriction_after_allowing_target :
  credentials carol ≠ []
  ∧ AObj (article erin) ∈ [AObj page; AObj (article erin)]
  ∧ interns ∈ credentials carol
  ∧ restricts (key_of_class (obj_class (article erin)))
      (py_set (permission (may "update"))) interns
  ∧ verdict (may "update") [AObj page; AObj (article erin)] (KwUser carol)
    = Ok true.
Proof.
  split; [discriminate|].
  split; [apply list_elem_of_further, list_elem_of_here|].
  split; [apply list_elem_of_here|].
  split; [exact interns_restrict_update|].
  vm_compute. reflexivity.
Qed.

(** Dave owns the article, but his only role allows no more than reading
    articles: updating it is denied at the allowance check. *)
Lemma allowance_check_dave :
  user_is_allowed key_of_class std_allowances dave
    (py_set (permission (may "update"))) (article dave) = false
  ∧ verdict (may "update") ([] ++ AObj (article dave) :: [AObj page])
      (KwUser dave) = Ok false.
Proof.
  assert (user_is_allowed key_of_class std_allowances dave
            (py_set (permission (may "update"))) (article dave) = false) as Hno.
  { vm_compute. reflexivity. }
  split; [exact Hno|].
  destruct (allowance_check key_of_class std_allowances anonymous)
    as (_ & _ & Hdeny).
  eapply (Hdeny (may "update") (KwUser dave) dave [] (article dave) _ [AObj page]).
  - reflexivity.
  - reflexivity.
  - reflexivity.
  - intros a Ha. inversion Ha.
  - reflexivity.
  - exact Hno.
Defined.

(** Tier fallthrough: Erin has no group, so the draft grants her nothing;
    the article after it is hers, and its owner tier allows the update. *)
Lemma tier_fallthrough_erin :
  verdict (may "update") [AObj draft; AObj (article erin)] (KwUser erin) = Ok true.
Proof.
  assert (resolve_user anonymous (KwUser erin) = Ok (Some erin)) as Hres
    by reflexivity.
  assert (user_has_role erin (has_role (may "update")) = false) as Hr
    by reflexivity.
  assert (user_in_group erin (in_group (may "update")) = false) as Hg
    by reflexivity.
  assert (permission (may "update") ≠ []) as Hperm by discriminate.
  destruct (tier_evaluation key_of_class std_allowances anonymous
              (may "update") (KwUser erin) erin Hres Hr Hg Hperm)
    as [Htier _].
  unfold verdict.
  destruct (Htier draft {["group" := ["read"; "update"]]} [AObj (article erin)])
    as [_ Hnext]; [reflexivity | reflexivity | reflexivity |].
  rewrite Hnext.
  - destruct (Htier (article erin)
                {["owner" := ["read"; "update"; "delete"]; "other" := ["read"]]} [])
      as [Hallow _]; [reflexivity | reflexivity | reflexivity |].
    apply Hallow. right; left. apply owner_test. vm_compute. reflexivity.
  - unfold tier_other. rewrite <- has_permission_set. vm_compute. discriminate.
  - rewrite <- owner_test. vm_compute. discriminate.
  - rewrite <- group_test. vm_compute. discriminate.
Defined.

(** A number among the arguments changes nothing. *)
Lemma number_is_transparent :
  verdict (may "update") ([AObj draft] ++ AObj number :: [AObj page]) (KwUser erin)
  = verdict (may "update") ([AObj draft] ++ [AObj page]) (KwUser erin).
Proof.
  apply (no_permissions_transparent key_of_class std_allowances anonymous
           (may "update") [AObj draft] (AObj number) [AObj page] (KwUser erin)).
  reflexivity.
Defined.

(** The docstring's [update_user], decorated with [authorize.update] and
    with a role requirement, both made of lists: the cache ends with both
    under its name. *)
Lemma register_concat_update_user :
  (register (needs_role "user-updators") "update_user"
     (register (may "update") "update_user" ∅).1).1 !! "update_user"
  = Some (concat_fields (may "update") (needs_role "user-updators"))
  ∧ permission (concat_fields (may "update") (needs_role "user-updators"))
    = ["update"]
  ∧ has_role (concat_fields (may "update") (needs_role "user-updators"))
    = ["user-updators"].
Proof.
  split; [|done].
  apply (register_concat key_of_class std_allowances anonymous
           (may "update") (needs_role "user-updators") "update_user" ∅
           [] KwNone).
  - reflexivity.
  - done.
Qed.

(** C5 — Registry merge by concatenation, where the code departs from it:
    [authorize.has_role(('admin', 'staff'))] keeps the tuple it is given, and
    decorating a function already decorated with it with [authorize.read]
    adds that tuple to the empty list of roles of the latter.  The update
    raises a [TypeError], the decoration fails with it, and the cache keeps
    the first authorizer alone under the name: nothing is concatenated. *)
Theorem register_tuple_then_list :
  let a := Views.admin_or_staff in
  let b := Authorize_read in
  let cache := (register a "update_user" ∅).1 in
  cache !! "update_user" = Some a
  ∧ (register b "update_user" cache).2
    = Raise (TypeError ("can only concatenate tuple (not " +:+ dquote
                        +:+ "list" +:+ dquote +:+ ") to tuple"))
  ∧ (register b "update_user" cache).1 !! "update_user" = Some a
  ∧ Authorizer_call key_of_class std_allowances anonymous b cache
      [AFunc "update_user"] KwNone
    = Raise (TypeError ("can only concatenate tuple (not " +:+ dquote
                        +:+ "list" +:+ dquote +:+ ") to tuple")).
Proof. vm_compute. done. Qed.

(** C9 as worded fails: the exception raised on a call without arguments
    does not carry the message the specification quotes. *)
Lemma call_without_arguments_message :
  ¬ ∃ e,
      Authorizer_call key_of_class std_allowances anonymous (may "read") ∅ [] KwNone
      = Raise e
      ∧ exn_msg e = "needs either a callable to decorate or objects to authorize".
Proof.
  intros (e & Hcall & Hmsg). cbn in Hcall.
  injection Hcall as <-. discriminate Hmsg.
Qed.

(** The bypass comes before the loop: Alice, with Carol's restricted role
    added to her own, still passes a requirement that names her role. *)
Lemma bypass_precedes_restriction :
  let user := {| user_id := 10; roles := Some [admin; interns]; groups := None |} in
  let self := Authorizer_init (IScalar "update") (IScalar "admin") INone INone in
  restricts (key_of_class (obj_class (article erin))) (py_set (permission self)) interns
  ∧ verdict self [AObj (article erin)] (KwUser user) = Ok true.
Proof. split; [exact interns_restrict_update | vm_compute; reflexivity]. Qed.

(** * Further properties of the plugin *)

(** ** What the bypass lists and the permission list contribute *)

Lemma any_check_in_ext creds (names1 names2 : list string) :
  (∀ x, x ∈ names1 ↔ x ∈ names2) →
  any_check_in creds names1 = any_check_in creds names2.
Proof.
  intros Hsame. induction creds as [|c creds IH]; simpl; [done|].
  rewrite IH. by rewrite (bool_decide_ext _ _ (Hsame (check_name c))).
Qed.

Lemma any_check_in_app creds (names1 names2 : list string) :
  any_check_in creds (names1 ++ names2)
  = any_check_in creds names1 || any_check_in creds names2.
Proof.
  induction creds as [|c creds IH]; simpl; [done|].
  rewrite IH.
  destruct (bool_decide_reflect (check_name c ∈ names1 ++ names2)) as [Hin|Hout];
    [apply elem_of_app in Hin | rewrite elem_of_app in Hout];
    repeat case_bool_decide; try done; try tauto;
    by destruct (any_check_in creds names1).
Qed.

Lemma any_check_in_nil creds : any_check_in creds [] = false.
Proof.
  induction creds as [|c creds IH]; simpl; done.
Qed.

Lemma same_elements_empty (l1 l2 : list string) :
  (∀ x, x ∈ l1 ↔ x ∈ l2) → (length l1 =? 0)%nat = (length l2 =? 0)%nat.
Proof.
  intros Hsame. destruct l1 as [|x l1], l2 as [|y l2]; try done.
  - exfalso. eapply not_elem_of_nil, (Hsame y). left.
  - exfalso. eapply not_elem_of_nil, (Hsame x). left.
Qed.

Section Composition.

Variable table_key : string → string.
Variable default_allowances : list string.
Variable CURRENT_USER : result (option User).

Abbreviation allowed := (allowed table_key default_allowances CURRENT_USER).
Abbreviation resolve_user := (resolve_user CURRENT_USER).
Abbreviation check_arg := (check_arg table_key default_allowances).
Abbreviation check_args := (check_args table_key default_allowances).
Abbreviation user_is_restricted := (user_is_restricted table_key).
Abbreviation user_is_allowed := (user_is_allowed table_key default_allowances).
Abbreviation invoke := (invoke table_key default_allowances CURRENT_USER).

Lemma lacks_permissions_skipped user operation arg :
  lacks_permissions arg → check_arg user operation arg = None.
Proof.
  destruct arg as [name|obj]; [done|]. simpl. intros Hp.
  unfold check_arg. by rewrite Hp.
Qed.

(** The decision reads the three lists of an authorizer as sets. *)
Lemma allowed_same_sets a b args kw :
  (∀ x, x ∈ permission a ↔ x ∈ permission b) →
  (∀ x, x ∈ has_role a ↔ x ∈ has_role b) →
  (∀ x, x ∈ in_group a ↔ x ∈ in_group b) →
  allowed a args kw = allowed b args kw.
Proof.
  intros Hp Hr Hg. unfold allowed.
  destruct (resolve_user kw) as [[user|]|e]; simpl; [|done|done].
  unfold user_has_role, user_in_group.
  rewrite (same_elements_empty _ _ Hp), (same_elements_empty _ _ Hr),
    (same_elements_empty _ _ Hg).
  assert (py_set (permission a) = py_set (permission b)) as ->.
  { apply set_eq. intros x. rewrite !elem_of_py_set_list. apply Hp. }
  destruct (roles user) as [rs|], (groups user) as [gs|];
    rewrite ?(any_check_in_ext _ _ _ Hr), ?(any_check_in_ext _ _ _ Hg); done.
Qed.

(** X1 — Group bypass: a subject that has a group whose name (its string
    form when it has no name) is among the authorizer's groups is allowed,
    whatever the permissions asked and the targets given. *)
Theorem group_bypass self args kw user gs g :
  resolve_user kw = Ok (Some user) →
  groups user = Some gs →
  g ∈ gs →
  check_name g ∈ in_group self →
  allowed self args kw = Ok true.
Proof.
  intros Hres Hgs Hg Hin. rewrite (allowed_resolved _ _ _ _ _ _ _ Hres).
  assert (user_in_group user (in_group self) = true) as ->.
  { apply user_in_group_true. by exists gs, g. }
  by rewrite orb_true_r.
Qed.

Lemma allowed_without_checks self args kw user :
  resolve_user kw = Ok (Some user) →
  permission self = [] ∨ (∀ a, a ∈ args → lacks_permissions a) →
  allowed self args kw
  = Ok (user_has_role user (has_role self) || user_in_group user (in_group self)).
Proof.
  intros Hres Hnothing. rewrite (allowed_resolved _ _ _ _ _ _ _ Hres).
  destruct Hnothing as [-> | Hlack].
  - simpl. by rewrite orb_false_r.
  - rewrite <- (app_nil_r args), check_args_skip.
    + simpl. by rewrite andb_false_r, orb_false_r.
    + intros a Ha. by apply lacks_permissions_skipped, Hlack.
Qed.

(** X2 — Nothing to check: when the authorizer asks for no permission, or
    when no argument has a [permissions] attribute, the decision for a known
    subject is allow exactly when the role or the group bypass applies; the
    arguments play no part. *)
Theorem nothing_to_check self args kw user :
  resolve_user kw = Ok (Some user) →
  permission self = [] ∨ (∀ a, a ∈ args → lacks_permissions a) →
  allowed self args kw
  = Ok (user_has_role user (has_role self) || user_in_group user (in_group self)).
Proof. apply allowed_without_checks. Qed.

(** X3 — The decision reads its lists as sets: two authorizers whose
    permission, role and group lists have the same elements, in whatever
    order and however often repeated, decide alike on every call. *)
Theorem decision_by_sets a b args kw :
  (∀ x, x ∈ permission a ↔ x ∈ permission b) →
  (∀ x, x ∈ has_role a ↔ x ∈ has_role b) →
  (∀ x, x ∈ in_group a ↔ x ∈ in_group b) →
  allowed a args kw = allowed b args kw.
Proof. apply allowed_same_sets. Qed.

(** X4 — Merging is idempotent and commutative for the decision: an
    authorizer merged with itself decides as it did alone, and two
    authorizers merged in either order decide alike. *)
Theorem merge_order_irrelevant a b args kw :
  allowed (concat_fields a a) args kw = allowed a args kw
  ∧ allowed (concat_fields a b) args kw = allowed (concat_fields b a) args kw.
Proof.
  destruct (concat_fields_items a a) as (Haa1 & Haa2 & Haa3 & _).
  destruct (concat_fields_items a b) as (Hab1 & Hab2 & Hab3 & _).
  destruct (concat_fields_items b a) as (Hba1 & Hba2 & Hba3 & _).
  split; apply allowed_same_sets; intros x;
    rewrite ?Haa1, ?Haa2, ?Haa3, ?Hab1, ?Hab2, ?Hab3, ?Hba1, ?Hba2, ?Hba3,
      ?elem_of_app; tauto.
Qed.

(** X5 — Merging with a bypass-only authorizer is a disjunction: when [b]
    asks for no permission, the merge of [a] and [b] allows exactly when [a]
    allows or [b] allows, and fails to resolve the subject exactly when they
    do. *)
Theorem merge_with_bypass a b args kw :
  permission b = [] →
  allowed (concat_fields a b) args kw
  = (x ← allowed a args kw; y ← allowed b args kw; Ok (x || y)).
Proof.
  intros Hb.
  destruct (resolve_user kw) as [[user|]|e] eqn:Hres.
  - rewrite !(allowed_resolved _ _ _ _ _ _ _ Hres).
    destruct (concat_fields_items a b) as (-> & -> & -> & _). simpl.
    rewrite Hb, app_nil_r. unfold user_has_role, user_in_group.
    f_equal. simpl.
    destruct (roles user) as [rs|], (groups user) as [gs|];
      rewrite ?any_check_in_app;
      repeat match goal with |- context [any_check_in ?c ?n] =>
        destruct (any_check_in c n) end;
      simpl; rewrite ?andb_false_r, ?orb_true_r, ?orb_false_r; done.
  - unfold allowed. by rewrite Hres.
  - unfold allowed. by rewrite Hres.
Qed.

(** X6 — The model is not consulted: authorizers that differ only in their
    [model] list, such as [authorize.create(A)] and [authorize.create(B)],
    decide alike. *)
Theorem model_ignored a b args kw :
  permission a = permission b →
  has_role a = has_role b →
  in_group a = in_group b →
  allowed a args kw = allowed b args kw
  ∧ ∀ m m', allowed (Authorize_create m) args kw
            = allowed (Authorize_create m') args kw.
Proof.
  intros Hp Hr Hg. split.
  - apply allowed_same_sets; intros x; by rewrite ?Hp, ?Hr, ?Hg.
  - intros m m'. by apply allowed_same_sets.
Qed.

(** X7 — [authorize.has_role] and [authorize.in_group]: the authorizers
    they return decide by the subject's roles, respectively groups, alone,
    for any arguments. *)
Theorem role_and_group_authorizers role args kw user :
  resolve_user kw = Ok (Some user) →
  allowed (Authorize_has_role role) args kw
  = Ok (user_has_role user (seq_items (listify role)))
  ∧ allowed (Authorize_in_group role) args kw
    = Ok (user_in_group user (seq_items (listify role))).
Proof.
  intros Hres. rewrite !(allowed_resolved _ _ _ _ _ _ _ Hres). simpl.
  assert (user_has_role user [] = false) as Hno_role.
  { unfold user_has_role. destruct (roles user); [apply any_check_in_nil | done]. }
  assert (user_in_group user [] = false) as Hno_group.
  { unfold user_in_group. destruct (groups user); [apply any_check_in_nil | done]. }
  unfold has_role, in_group. simpl.
  rewrite Hno_role, Hno_group. by rewrite !orb_false_r.
Qed.

(** ** The loop, target by target *)

(** When one iteration grants. *)
Lemma check_arg_true user operation obj perms :
  permissions obj = Some perms →
  check_arg user operation (AObj obj) = Some true
  ↔ user_is_restricted user operation obj = false
    ∧ user_is_allowed user operation obj = true
    ∧ (tier_other operation perms ∨ tier_owner user operation obj perms
       ∨ tier_group user operation obj perms).
Proof.
  intros Hp.
  destruct (user_is_restricted user operation obj) eqn:Hr.
  { rewrite (check_arg_restricted _ _ _ _ _ _ Hp Hr). naive_solver. }
  destruct (user_is_allowed user operation obj) eqn:Ha.
  2: { rewrite (check_arg_disallowed _ _ _ _ _ _ Hp Ha). naive_solver. }
  destruct (check_arg_tiers _ _ _ _ _ _ Hp Hr Ha) as [Hyes Hno].
  split.
  - intros Htrue. split; [done|]. split; [done|].
    unfold tier_other.
    rewrite <- (has_permission_set operation (default [] (perms !! "other"))).
    rewrite <- owner_test, <- group_test.
    destruct (has_permission operation (default [] (perms !! "other"))) eqn:E1;
      [by left|].
    destruct (match owner obj with Some _ => _ | None => _ end) eqn:E2;
      [by right; left|].
    destruct (match group obj with Some _ => _ | None => _ end) eqn:E3;
      [by right; right|].
    rewrite Hno in Htrue; [done| | |].
    + unfold tier_other. rewrite <- has_permission_set. by rewrite E1.
    + rewrite <- owner_test. by rewrite E2.
    + rewrite <- group_test. by rewrite E3.
  - intros (_ & _ & Ht). by apply Hyes.
Qed.

(** When one iteration denies. *)
Lemma check_arg_false user operation arg :
  check_arg user operation arg = Some false
  ↔ ∃ obj perms, arg = AObj obj ∧ permissions obj = Some perms
      ∧ (user_is_restricted user operation obj = true
         ∨ user_is_allowed user operation obj = false).
Proof.
  split.
  - destruct arg as [name|obj]; [done|].
    destruct (permissions obj) as [perms|] eqn:Hp.
    2: { unfold check_arg. by rewrite Hp. }
    intros Hfalse. exists obj, perms. split; [done|]. split; [done|].
    destruct (user_is_restricted user operation obj) eqn:Hr; [by left|].
    destruct (user_is_allowed user operation obj) eqn:Ha; [|by right].
    exfalso. revert Hfalse. unfold check_arg. rewrite Hp, Hr, Ha. cbn [negb].
    repeat match goal with |- context [if ?b then _ else _] => destruct b end;
      discriminate.
  - intros (obj & perms & -> & Hp & [Hr | Ha]).
    + by apply (check_arg_restricted _ _ _ _ _ perms).
    + by apply (check_arg_disallowed _ _ _ _ _ perms).
Qed.

Lemma check_args_true user operation args :
  check_args user operation args = true
  ↔ ∃ pre a post, args = pre ++ a :: post
      ∧ (∀ x, x ∈ pre → check_arg user operation x = None)
      ∧ check_arg user operation a = Some true.
Proof.
  induction args as [|a args IH]; simpl.
  - split; [done|]. intros (pre & a & post & Heq & _). by destruct pre.
  - destruct (check_arg user operation a) as [[|]|] eqn:E.
    + split; [|done]. intros _. exists [], a, args.
      split; [done|]. split; [|done]. intros x Hx. inversion Hx.
    + split; [done|]. intros (pre & a' & post & Heq & Hpre & Ha').
      destruct pre as [|p pre]; simplify_eq/=.
      rewrite (Hpre p) in E by left. done.
    + rewrite IH. split.
      * intros (pre & a' & post & -> & Hpre & Ha').
        exists (a :: pre), a', post. split; [done|]. split; [|done].
        intros x [-> | Hx]%elem_of_cons; [done | by apply Hpre].
      * intros (pre & a' & post & Heq & Hpre & Ha').
        destruct pre as [|p pre]; simplify_eq/=.
        exists pre, a', post. split; [done|]. split; [|done].
        intros x Hx. apply Hpre. by right.
Qed.

Lemma check_args_without_denial user operation args :
  (∀ a, a ∈ args → check_arg user operation a ≠ Some false) →
  check_args user operation args = true
  ↔ ∃ a, a ∈ args ∧ check_arg user operation a = Some true.
Proof.
  induction args as [|a args IH]; intros Hno; simpl.
  - split; [done|]. intros (a & Ha & _). inversion Ha.
  - pose proof (Hno a ltac:(left)) as Ha.
    destruct (check_arg user operation a) as [[|]|] eqn:E; [|done|].
    + split; [|done]. intros _. exists a. split; [left | done].
    + rewrite IH by (intros x Hx; apply Hno; by right). split.
      * intros (x & Hx & Htrue). exists x. split; [by right | done].
      * intros (x & [-> | Hx]%elem_of_cons & Htrue); [congruence|].
        by exists x.
Qed.

(** X8 — The first decisive target decides: a known subject is allowed
    exactly when a bypass applies, or permissions are asked and some
    argument grants while every argument before it is passed over (it has
    no [permissions] attribute, or none of its tiers includes the
    operation). *)
Theorem first_decisive_target self args kw user :
  resolve_user kw = Ok (Some user) →
  allowed self args kw = Ok true
  ↔ user_has_role user (has_role self) = true
    ∨ user_in_group user (in_group self) = true
    ∨ (permission self ≠ []
       ∧ ∃ pre a post, args = pre ++ a :: post
           ∧ (∀ x, x ∈ pre → check_arg user (py_set (permission self)) x = None)
           ∧ check_arg user (py_set (permission self)) a = Some true).
Proof.
  intros Hres. rewrite (allowed_resolved _ _ _ _ _ _ _ Hres).
  rewrite <- check_args_true.
  destruct (user_has_role user (has_role self)); [naive_solver|].
  destruct (user_in_group user (in_group self)); [naive_solver|].
  destruct (permission self) as [|p ps] eqn:Hp; simpl.
  - naive_solver.
  - destruct (check_args user (py_set (p :: ps)) args); naive_solver.
Qed.

(** X9 — Without a denial the order of the targets is immaterial: when no
    argument is denied by a restriction or a failed allowance check,
    reordering the arguments leaves the decision unchanged. *)
Theorem order_irrelevant_without_denial self args args' kw user :
  resolve_user kw = Ok (Some user) →
  (∀ a, a ∈ args → check_arg user (py_set (permission self)) a ≠ Some false) →
  args ≡ₚ args' →
  allowed self args kw = allowed self args' kw.
Proof.
  intros Hres Hno Hperm. rewrite !(allowed_resolved _ _ _ _ _ _ _ Hres).
  do 3 f_equal. apply Bool.eq_true_iff_eq.
  rewrite !check_args_without_denial.
  - split; intros (a & Ha & Htrue); exists a; (split; [|done]).
    + by rewrite <- Hperm.
    + by rewrite Hperm.
  - intros a Ha. apply Hno. by rewrite Hperm.
  - done.
Qed.

(** ** Asking for less *)

Lemma user_is_restricted_mono user (operation operation' : gset string) obj :
  operation' ⊆ operation →
  user_is_restricted user operation' obj = true →
  user_is_restricted user operation obj = true.
Proof.
  intros Hsub. rewrite !user_is_restricted_true.
  intros (c & Hc & m & Hm & Hmeet). exists c. split; [done|].
  exists m. split; [done|]. set_solver.
Qed.

Lemma user_is_allowed_anti user (operation operation' : gset string) obj :
  operation' ⊆ operation →
  user_is_allowed user operation obj = true →
  user_is_allowed user operation' obj = true.
Proof.
  intros Hsub. rewrite !user_is_allowed_true.
  intros [Hnil | [Hun | Hin]]; [by left | by right; left | right; right].
  set_solver.
Qed.

Lemma check_arg_mono user (operation operation' : gset string) arg :
  operation' ⊆ operation →
  (check_arg user operation arg = Some true →
   check_arg user operation' arg = Some true)
  ∧ (check_arg user operation' arg = Some false →
     check_arg user operation arg = Some false).
Proof.
  intros Hsub. split.
  - destruct arg as [name|obj]; [done|].
    destruct (permissions obj) as [perms|] eqn:Hp.
    2: { unfold check_arg. by rewrite Hp. }
    rewrite !(check_arg_true _ _ _ _ Hp).
    intros (Hr & Ha & Ht). split; [|split].
    + destruct (user_is_restricted user operation' obj) eqn:E; [|done].
      by rewrite (user_is_restricted_mono _ _ _ _ Hsub E) in Hr.
    + by apply (user_is_allowed_anti _ _ _ _ Hsub).
    + unfold tier_other, tier_owner, tier_group in *.
      destruct Ht as [Ht | [[Ho Ht] | [Hg Ht]]];
        [left | right; left; split; [done|] | right; right; split; [done|]];
        set_solver.
  - rewrite !check_arg_false.
    intros (obj & perms & -> & Hp & Hdeny). exists obj, perms.
    split; [done|]. split; [done|]. destruct Hdeny as [Hr | Ha].
    + left. by apply (user_is_restricted_mono _ _ _ _ Hsub).
    + right. destruct (user_is_allowed user operation obj) eqn:E; [|done].
      by rewrite (user_is_allowed_anti _ _ _ _ Hsub E) in Ha.
Qed.

Lemma check_args_mono user (operation operation' : gset string) args :
  operation' ⊆ operation →
  check_args user operation args = true →
  check_args user operation' args = true.
Proof.
  intros Hsub. induction args as [|a args IH]; simpl; [done|].
  destruct (check_arg_mono user operation operation' a Hsub) as [Htrue Hfalse].
  destruct (check_arg user operation a) as [[|]|] eqn:E.
  - by rewrite Htrue.
  - done.
  - destruct (check_arg user operation' a) as [[|]|] eqn:E'; [done | | done].
    by specialize (Hfalse eq_refl).
Qed.

(** X10 — Asking for less never turns allow into deny: if an authorizer
    allows a call, so does one with the same roles and groups that asks for
    a non-empty part of its permissions. *)
Theorem fewer_permissions a a' args kw :
  has_role a' = has_role a →
  in_group a' = in_group a →
  permission a' ≠ [] →
  (∀ x, x ∈ permission a' → x ∈ permission a) →
  allowed a args kw = Ok true →
  allowed a' args kw = Ok true.
Proof.
  intros Hr Hg Hne Hsub.
  destruct (resolve_user kw) as [[user|]|e] eqn:Hres.
  - rewrite !(allowed_resolved _ _ _ _ _ _ _ Hres), Hr, Hg.
    intros [= Hallow]. f_equal.
    destruct (user_has_role user (has_role a)); [done|].
    destruct (user_in_group user (in_group a)); [done|].
    simpl in *. apply andb_true_iff in Hallow as [_ Hloop].
    apply andb_true_iff. split.
    + by destruct (permission a').
    + apply (check_args_mono _ (py_set (permission a))); [|done].
      intros x. rewrite !elem_of_py_set_list. apply Hsub.
  - unfold allowed. by rewrite Hres.
  - unfold allowed. by rewrite Hres.
Qed.

(** ** Subjects and their credentials *)

Lemma no_credentials_no_bypass user names :
  credentials user = [] →
  user_has_role user names = false ∧ user_in_group user names = false.
Proof.
  unfold credentials, user_has_role, user_in_group.
  intros [Hr Hg]%app_eq_nil.
  destruct (roles user), (groups user); simpl in *; by subst.
Qed.

(** X11 — A subject without credentials is judged by the tiers alone: when
    it has neither roles nor groups and permissions are asked, it is allowed
    exactly when some argument with a [permissions] attribute includes the
    operation in its other tier, or in its owner tier and is owned by the
    subject (its group tier cannot apply). *)
Theorem no_credentials_tiers_only self args kw user :
  resolve_user kw = Ok (Some user) →
  credentials user = [] →
  permission self ≠ [] →
  allowed self args kw = Ok true
  ↔ ∃ obj perms, AObj obj ∈ args ∧ permissions obj = Some perms
      ∧ (tier_other (py_set (permission self)) perms
         ∨ tier_owner user (py_set (permission self)) obj perms).
Proof.
  intros Hres Hnone Hne.
  assert (∀ operation obj, user_is_restricted user operation obj = false) as Hr.
  { intros operation obj. unfold user_is_restricted. by rewrite Hnone. }
  assert (∀ operation obj, user_is_allowed user operation obj = true) as Ha.
  { intros operation obj. unfold user_is_allowed. by rewrite Hnone. }
  assert (∀ operation obj perms, ¬ tier_group user operation obj perms) as Hng.
  { intros operation obj perms [(g & gs & _ & Hgs & Hin) _].
    unfold credentials in Hnone. apply app_eq_nil in Hnone as [_ Hg].
    rewrite Hgs in Hg. simpl in Hg. by subst. }
  destruct (no_credentials_no_bypass user (has_role self) Hnone) as [Hnr _].
  destruct (no_credentials_no_bypass user (in_group self) Hnone) as [_ Hngp].
  rewrite (allowed_resolved _ _ _ _ _ _ _ Hres), Hnr, Hngp. simpl.
  assert ((length (permission self) =? 0)%nat = false) as ->
    by (by destruct (permission self)).
  simpl. split.
  - intros [= Hloop]. apply check_args_without_denial in Hloop.
    + destruct Hloop as (a & Hin & Htrue).
      destruct a as [name|obj]; [done|].
      destruct (permissions obj) as [perms|] eqn:Hp.
      2: { unfold check_arg in Htrue. by rewrite Hp in Htrue. }
      destruct (proj1 (check_arg_true _ _ _ _ Hp) Htrue) as (_ & _ & Ht).
      exists obj, perms. split; [done|]. split; [done|].
      destruct Ht as [? | [? | Hg]]; [by left | by right | by apply Hng in Hg].
    + intros a _. rewrite check_arg_false.
      intros (obj & perms & _ & _ & [Hr' | Ha']);
        [by rewrite Hr in Hr' | by rewrite Ha in Ha'].
  - intros (obj & perms & Hin & Hp & Ht). f_equal.
    apply check_args_without_denial.
    + intros a _. rewrite check_arg_false.
      intros (obj' & perms' & _ & _ & [Hr' | Ha']);
        [by rewrite Hr in Hr' | by rewrite Ha in Ha'].
    + exists (AObj obj). split; [done|].
      apply (check_arg_true _ _ _ _ Hp). split; [done|]. split; [done|].
      destruct Ht; [by left | by right; left].
Qed.

Lemma union_list_fmap_same (f : Credential → gset string) l l' :
  (∀ c, c ∈ l ↔ c ∈ l') → ⋃ (f <$> l) = ⋃ (f <$> l').
Proof.
  intros Hsame. apply set_eq. intros x. rewrite !elem_of_union_list.
  split; intros (X & (c & -> & Hc)%list_elem_of_fmap & Hx);
    exists (f c); (split; [|done]); apply list_elem_of_fmap; exists c;
    (split; [done|]); by apply Hsame.
Qed.

Lemma same_elements_nil (l l' : list Credential) :
  (∀ c, c ∈ l ↔ c ∈ l') → l = [] ↔ l' = [].
Proof.
  intros Hsame. split; intros ->.
  - destruct l' as [|c l']; [done|].
    exfalso. apply (not_elem_of_nil c), Hsame. left.
  - destruct l as [|c l]; [done|].
    exfalso. apply (not_elem_of_nil c), Hsame. left.
Qed.

(** X12 — Credentials count as a set: two subjects whose roles and groups
    together hold the same credentials, in whatever order, however often
    and whether as role or as group, get the same answer from the
    restriction check and from the allowance check. *)
Theorem credentials_as_a_set user user' operation obj :
  (∀ c, c ∈ credentials user ↔ c ∈ credentials user') →
  user_is_restricted user operation obj = user_is_restricted user' operation obj
  ∧ user_is_allowed user operation obj = user_is_allowed user' operation obj.
Proof.
  intros Hsame. split; apply Bool.eq_true_iff_eq.
  - rewrite !user_is_restricted_true.
    split; intros (c & Hc & Hrestr); exists c; (split; [|done]);
      by apply Hsame.
  - rewrite !user_is_allowed_true, (union_list_fmap_same _ _ _ Hsame).
    rewrite (same_elements_nil _ _ Hsame).
    assert ((∃ c, c ∈ credentials user ∧ unlimited c)
            ↔ ∃ c, c ∈ credentials user' ∧ unlimited c) as ->; [|done].
    split; intros (c & Hc & Hu); exists c; (split; [|done]); by apply Hsame.
Qed.

(** X13 — When a subject is restricted: the restriction check answers yes
    exactly when some credential carries a restrictions map that has, under
    the object's key, a list naming an action of the operation; a missing or
    null map, or a map without the key, restricts nothing. *)
Theorem restricted_iff user operation obj :
  user_is_restricted user operation obj = true
  ↔ ∃ c m actions x,
      c ∈ credentials user
      ∧ restrictions c = AttrVal m
      ∧ m !! table_key (obj_class obj) = Some actions
      ∧ x ∈ actions ∧ x ∈ operation.
Proof.
  rewrite user_is_restricted_true. unfold restricts. split.
  - intros (c & Hc & m & Hm & Hmeet).
    apply set_choose_L in Hmeet as [x Hx].
    apply elem_of_intersection in Hx as [Hx Hop].
    apply elem_of_py_set_list in Hx.
    destruct (m !! table_key (obj_class obj)) as [actions|] eqn:E;
      [|by apply not_elem_of_nil in Hx].
    by exists c, m, actions, x.
  - intros (c & m & actions & x & Hc & Hm & Hk & Hx & Hop).
    exists c. split; [done|]. exists m. split; [done|].
    rewrite Hk. simpl. apply (non_empty_inhabited_L x).
    apply elem_of_intersection. split; [|done]. by apply elem_of_py_set_list.
Qed.

(** ** Decorated functions *)

Lemma invoke_ok func args kwargs_values :
  invoke func args kwargs_values = Ok ()
  ↔ ∀ auth, auth ∈ wrappers func →
      allowed auth (args ++ kwargs_values) KwNone = Ok true.
Proof.
  induction func as [name|auth func IH]; simpl.
  - split; [|done]. intros _ auth Hin. inversion Hin.
  - destruct (allowed auth (args ++ kwargs_values) KwNone) as [[|]|e] eqn:E; simpl.
    + rewrite IH. split.
      * intros Hall auth' [-> | Hin]%elem_of_cons; [done | by apply Hall].
      * intros Hall auth' Hin. apply Hall. by right.
    + split; [done|]. intros Hall.
      specialize (Hall auth ltac:(left)). congruence.
    + split; [done|]. intros Hall.
      specialize (Hall auth ltac:(left)). congruence.
Qed.

(** X14 — A decorated function runs exactly when every wrapper allows: the
    call goes through to the plain function if and only if each authorizer
    it was wrapped with allows the call's positional and keyword values for
    the current user; otherwise it raises. *)
Theorem invoke_runs_iff func args kwargs_values :
  invoke func args kwargs_values = Ok ()
  ↔ ∀ auth, auth ∈ wrappers func →
      allowed auth (args ++ kwargs_values) KwNone = Ok true.
Proof. apply invoke_ok. Qed.

Lemma decorate_fresh self name (cache : gmap string Authorizer) :
  cache !! name = None →
  decorate self cache (Plain name)
  = Ok ((register self name cache).1, Inner self (Plain name)).
Proof.
  intros Hfresh. unfold decorate. simpl.
  rewrite (register_unseen _ _ _ Hfresh). simpl. by rewrite lookup_insert_eq.
Qed.

Lemma decorate_again original self func (cache : gmap string Authorizer) :
  cache !! callable_name func = Some original →
  same_kinds original self →
  decorate self cache func
  = Ok ((register self (callable_name func) cache).1,
        Inner (concat_fields original self) func).
Proof.
  intros Hseen Hk. unfold decorate.
  rewrite (register_seen _ _ _ _ Hseen Hk). simpl. by rewrite lookup_insert_eq.
Qed.

Lemma decorate_mixed original self func (cache : gmap string Authorizer) :
  cache !! callable_name func = Some original →
  ¬ same_kinds original self →
  ∃ msg, decorate self cache func = Raise (TypeError msg).
Proof.
  intros Hseen Hk. unfold decorate.
  destruct (register_mixed _ _ _ _ Hseen Hk) as [msg ->]. by exists msg.
Qed.

(** The decoration of a function is the decoration branch of
    [Authorizer.__call__] on it. *)
Lemma decorate_call self (cache : gmap string Authorizer) func cargs kw cache' auth :
  Authorizer_call table_key default_allowances CURRENT_USER self cache
    (AFunc (callable_name func) :: cargs) kw = Ok (Decorated cache' auth)
  ↔ decorate self cache func = Ok (cache', Inner auth func).
Proof.
  unfold Authorizer_call, decorate.
  destruct (register self (callable_name func) cache) as [cache'' [[]|e]];
    [|naive_solver].
  destruct (cache'' !! callable_name func); naive_solver.
Qed.

(** X15 — Stacked decorators: decorating a function whose name is not in
    the cache with [a] wraps it once; decorating the result with [b], when
    the attributes of [a] and [b] agree in kind (both lists or both tuples),
    wraps it again, the outer wrapper holding the merge of [a] and [b] and
    the inner one [a] alone, and the call then runs exactly when the merge
    allows it and [a] alone allows it too; when some attribute is a list in
    one and a tuple in the other, the second decoration raises a
    [TypeError]. *)
Theorem stacked_decoration a b name (cache : gmap string Authorizer) :
  cache !! name = None →
  decorate a cache (Plain name)
  = Ok ((register a name cache).1, Inner a (Plain name))
  ∧ (same_kinds a b →
     decorate b (register a name cache).1 (Inner a (Plain name))
     = Ok ((register b name (register a name cache).1).1,
           Inner (concat_fields a b) (Inner a (Plain name)))
     ∧ ∀ args kwargs_values,
         invoke (Inner (concat_fields a b) (Inner a (Plain name)))
           args kwargs_values
         = Ok ()
         ↔ allowed (concat_fields a b) (args ++ kwargs_values) KwNone = Ok true
           ∧ allowed a (args ++ kwargs_values) KwNone = Ok true)
  ∧ (¬ same_kinds a b →
     ∃ msg, decorate b (register a name cache).1 (Inner a (Plain name))
            = Raise (TypeError msg)).
Proof.
  intros Hfresh. split; [by apply decorate_fresh|].
  assert ((register a name cache).1 !! callable_name (Inner a (Plain name))
          = Some a) as Hseen.
  { rewrite (register_unseen _ _ _ Hfresh). simpl. apply lookup_insert_eq. }
  split.
  - intros Hk. split.
    + by apply (decorate_again a b (Inner a (Plain name))).
    + intros args kwargs_values. rewrite invoke_ok. simpl. split.
      * intros Hall. split; apply Hall; [left | right; left].
      * intros [Hab Ha] auth [-> | [-> | Hin]%elem_of_cons]%elem_of_cons;
          [done | done | inversion Hin].
  - intros Hk. by apply (decorate_mixed a b (Inner a (Plain name))).
Qed.

(** X16 — Nobody logged in: when the current-user accessor yields no user,
    every call of a decorated function raises [Unauthorized], whatever its
    arguments and whatever it was decorated with. *)
Theorem invoke_anonymous auth func args kwargs_values :
  CURRENT_USER = Ok None →
  invoke (Inner auth func) args kwargs_values = Raise Unauthorized.
Proof.
  intros Hanon. simpl. unfold allowed, resolve_user. by rewrite Hanon.
Qed.

(** X17 — A permission-only decorator on a function without model
    arguments never lets the call through: when the authorizer names no role
    and no group and no argument has a [permissions] attribute, the wrapped
    function is not run, whoever the current user is. *)
Theorem invoke_without_targets auth func args kwargs_values :
  has_role auth = [] →
  in_group auth = [] →
  (∀ a, a ∈ args ++ kwargs_values → lacks_permissions a) →
  invoke (Inner auth func) args kwargs_values ≠ Ok ().
Proof.
  intros Hr Hg Hlack. simpl.
  destruct (resolve_user KwNone) as [[user|]|e] eqn:Hres.
  - rewrite (allowed_without_checks _ _ _ _ Hres (or_intror Hlack)), Hr, Hg.
    unfold user_has_role, user_in_group.
    destruct (roles user), (groups user); rewrite ?any_check_in_nil; done.
  - unfold allowed. by rewrite Hres.
  - unfold allowed. by rewrite Hres.
Qed.

End Composition.

(** ** The cache *)

(** X18 — Decoration touches one entry: decorating under [name] leaves the
    entry of every other name as it was, and the names the cache knows are
    those it knew and [name]. *)
Theorem register_frame self name (cache : gmap string Authorizer) :
  (∀ other, other ≠ name →
     (register self name cache).1 !! other = cache !! other)
  ∧ dom (register self name cache).1 = {[name]} ∪ dom cache.
Proof.
  unfold register. split.
  - intros other Hne.
    destruct (cache !! name); [destruct (merged _ _)|]; simpl;
      by rewrite ?lookup_insert_ne.
  - destruct (cache !! name) as [original|] eqn:E;
      [destruct (merged _ _)|]; simpl; rewrite ?dom_insert_L; [done| |done].
    assert (name ∈ dom cache) by (apply elem_of_dom; eauto). set_solver.
Qed.

Lemma same_kind_concat a b c : same_kind (seq_concat a b) c ↔ same_kind a c.
Proof. by destruct a, c. Qed.

Lemma same_kinds_concat a b c :
  same_kinds (concat_fields a b) c ↔ same_kinds a c.
Proof. unfold same_kinds. simpl. by rewrite !same_kind_concat. Qed.

Lemma foldl_concat_fields_items a l :
  permission (foldl concat_fields a l) = permission a ++ concat (permission <$> l)
  ∧ has_role (foldl concat_fields a l) = has_role a ++ concat (has_role <$> l)
  ∧ in_group (foldl concat_fields a l) = in_group a ++ concat (in_group <$> l)
  ∧ model (foldl concat_fields a l) = model a ++ concat (model <$> l).
Proof.
  revert a. induction l as [|b l IH]; intros a; simpl.
  - by rewrite !app_nil_r.
  - destruct (IH (concat_fields a b)) as (-> & -> & -> & ->).
    destruct (concat_fields_items a b) as (-> & -> & -> & ->).
    by rewrite <- !app_assoc.
Qed.

Lemma register_all_seen a l name (cache : gmap string Authorizer) :
  cache !! name = Some a →
  (∀ b, b ∈ l → same_kinds a b) →
  register_all l name cache = (<[name := foldl concat_fields a l]> cache, Ok ()).
Proof.
  revert a cache. induction l as [|b l IH]; intros a cache Hseen Hk; simpl.
  - by rewrite insert_id.
  - rewrite (register_seen a b name cache Hseen (Hk b ltac:(left))).
    rewrite (IH (concat_fields a b)).
    + by rewrite insert_insert_eq.
    + apply lookup_insert_eq.
    + intros c Hc. apply same_kinds_concat, Hk. by right.
Qed.

Lemma register_all_mixed a l name (cache : gmap string Authorizer) :
  cache !! name = Some a →
  (∃ b, b ∈ l ∧ ¬ same_kinds a b) →
  ∃ msg, (register_all l name cache).2 = Raise (TypeError msg).
Proof.
  revert a cache. induction l as [|b l IH]; intros a cache Hseen (c & Hc & Hno).
  - inversion Hc.
  - simpl. destruct (merged_cases a b) as [[Hk _] | [Hk _]].
    + rewrite (register_seen a b name cache Hseen Hk).
      apply (IH (concat_fields a b)); [apply lookup_insert_eq|].
      exists c. split.
      * apply elem_of_cons in Hc as [-> | Hc]; done.
      * by rewrite same_kinds_concat.
    + destruct (register_mixed a b name cache Hseen Hk) as [msg ->].
      by exists msg.
Qed.

(** X19 — Any number of decorations: decorating under a name not yet in
    the cache with each authorizer of a non-empty list in turn, when the
    attributes of all agree in kind with those of the first, succeeds and
    leaves under that name the authorizer whose four fields hold the
    concatenations, in order, of theirs; when some authorizer has a list
    where the first has a tuple, or a tuple where it has a list, it raises a
    [TypeError]. *)
Theorem register_all_concat a l name (cache : gmap string Authorizer) :
  cache !! name = None →
  ((∀ b, b ∈ l → same_kinds a b) →
   (register_all (a :: l) name cache).2 = Ok ()
   ∧ (register_all (a :: l) name cache).1 !! name
     = Some (foldl concat_fields a l)
   ∧ permission (foldl concat_fields a l) = concat (permission <$> a :: l)
   ∧ has_role (foldl concat_fields a l) = concat (has_role <$> a :: l)
   ∧ in_group (foldl concat_fields a l) = concat (in_group <$> a :: l)
   ∧ model (foldl concat_fields a l) = concat (model <$> a :: l))
  ∧ ((∃ b, b ∈ l ∧ ¬ same_kinds a b) →
     ∃ msg, (register_all (a :: l) name cache).2 = Raise (TypeError msg)).
Proof.
  intros Hfresh.
  assert (<[name := a]> cache !! name = Some a) as Hseen
    by apply lookup_insert_eq.
  cbn [register_all]. rewrite (register_unseen a name cache Hfresh).
  split.
  - intros Hk. rewrite (register_all_seen a l name _ Hseen Hk). simpl.
    split; [done|]. split; [apply lookup_insert_eq|].
    apply foldl_concat_fields_items.
  - intros Hmixed. by apply (register_all_mixed a l name _ Hseen).
Qed.

(** ** The permission test on lists *)

Lemma size_list_to_set_le (l : list string) :
  (size (list_to_set l : gset string) ≤ length l)%nat.
Proof.
  induction l as [|x l IH]; [done|].
  change (list_to_set (x :: l) : gset string)
    with ({[x]} ∪ list_to_set l : gset string).
  rewrite size_union_alt, size_singleton.
  pose proof (subseteq_size (list_to_set l ∖ {[x]}) (list_to_set l : gset string)
                ltac:(set_solver)) as Hle.
  simpl. lia.
Qed.

Lemma size_list_to_set_NoDup (l : list string) :
  size (list_to_set l : gset string) = length l ↔ NoDup l.
Proof.
  split; [|apply size_list_to_set].
  induction l as [|x l IH]; [constructor|].
  change (list_to_set (x :: l) : gset string)
    with ({[x]} ∪ list_to_set l : gset string).
  intros Hsize. pose proof (size_list_to_set_le l) as Hle. simpl in Hsize.
  destruct (decide (x ∈ l)) as [Hin|Hout].
  - exfalso.
    assert ({[x]} ∪ list_to_set l = (list_to_set l : gset string)) as Heq
      by set_solver.
    rewrite Heq in Hsize. lia.
  - constructor; [done|]. apply IH.
    rewrite size_union, size_singleton in Hsize by set_solver. lia.
Qed.

(** X20 — The permission test on a list: with a list as [expected],
    [has_permission] holds exactly when the list has no repetition and all
    its elements are in [actual]; a repeated action makes it fail even when
    the action is permitted. *)
Theorem has_permission_list `{PyColl A} (expected : list string) (actual : A) :
  has_permission expected actual = true
  ↔ NoDup expected ∧ ∀ x, x ∈ expected → x ∈ py_items actual.
Proof.
  unfold has_permission. rewrite bool_decide_eq_true. simpl.
  pose proof (size_list_to_set_le expected) as Hle.
  pose proof (subseteq_size (py_set expected ∩ py_set actual) (py_set expected)
                ltac:(set_solver)) as Hinter.
  unfold py_set in *. simpl in *.
  split.
  - intros Hsize. split.
    + apply size_list_to_set_NoDup. lia.
    + assert (size (list_to_set expected ∩ list_to_set (py_items actual) : gset string)
              = size (list_to_set expected : gset string)) as Hsame by lia.
      apply size_inter_l in Hsame. set_solver.
  - intros [Hnodup Hsub].
    rewrite <- (size_list_to_set (C := gset string) expected Hnodup).
    apply size_inter_l. set_solver.
Qed.

(** ** Setting the plugin up *)

Lemma setdefault_lookup key value (config : gmap string CfgValue) k :
  setdefault key value config !! k
  = match config !! k with
    | Some v => Some v
    | None => if decide (key = k) then Some value else None
    end.
Proof.
  unfold setdefault. destruct (config !! key) as [v|] eqn:E.
  - destruct (config !! k) eqn:E'; [done|]. case_decide; [congruence | done].
  - rewrite lookup_insert. case_decide; [subst; by rewrite E|].
    by destruct (config !! k).
Qed.

Lemma setdefault_present key value (config : gmap string CfgValue) :
  is_Some (config !! key) → setdefault key value config = config.
Proof. intros [v Hv]. unfold setdefault. by rewrite Hv. Qed.

Lemma init_config_keeps (config : gmap string CfgValue) k v :
  config !! k = Some v → init_config config !! k = Some v.
Proof.
  intros Hk. unfold init_config. rewrite !setdefault_lookup. by rewrite Hk.
Qed.

Lemma init_config_sets (config : gmap string CfgValue) k :
  k ∈ ["AUTHORIZE_DEFAULT_PERMISSIONS"; "AUTHORIZE_DEFAULT_RESTRICTIONS";
       "AUTHORIZE_DEFAULT_ALLOWANCES"; "AUTHORIZE_MODEL_PARSER"] →
  is_Some (init_config config !! k).
Proof.
  intros Hk. unfold init_config. rewrite !setdefault_lookup.
  destruct (config !! k); [by eexists|].
  repeat (apply elem_of_cons in Hk as [-> | Hk]);
    [| | | | by apply not_elem_of_nil in Hk];
    repeat (case_decide; [by eexists|]); done.
Qed.

Lemma init_app_config st current_user :
  config (init_app st current_user).1 = init_config (config st).
Proof. by destruct current_user. Qed.

(** X21 — [init_app] only fills gaps in the configuration: whatever is
    passed as [current_user], callable or not, every key already set keeps
    its value, the four keys of the plugin are set afterwards, no other key
    appears, and a second [init_app] changes nothing more. *)
Theorem init_app_defaults st current_user current_user' :
  let st' := (init_app st current_user).1 in
  (∀ k v, config st !! k = Some v → config st' !! k = Some v)
  ∧ (∀ k, k ∈ ["AUTHORIZE_DEFAULT_PERMISSIONS"; "AUTHORIZE_DEFAULT_RESTRICTIONS";
               "AUTHORIZE_DEFAULT_ALLOWANCES"; "AUTHORIZE_MODEL_PARSER"] →
          is_Some (config st' !! k))
  ∧ (∀ k, k ∉ ["AUTHORIZE_DEFAULT_PERMISSIONS"; "AUTHORIZE_DEFAULT_RESTRICTIONS";
               "AUTHORIZE_DEFAULT_ALLOWANCES"; "AUTHORIZE_MODEL_PARSER"] →
          config st' !! k = config st !! k)
  ∧ config (init_app st' current_user').1 = config st'.
Proof.
  cbv zeta. rewrite !init_app_config. split; [|split; [|split]].
  - apply init_config_keeps.
  - apply init_config_sets.
  - intros k Hk. unfold init_config. rewrite !setdefault_lookup.
    destruct (config st !! k); [done|].
    repeat (destruct (decide (_ = k)) as [<-|_];
            [exfalso; apply Hk; set_solver|]).
    done.
  - pose proof (init_config_sets (config st)) as Hset.
    unfold init_config at 1.
    rewrite (setdefault_present "AUTHORIZE_DEFAULT_PERMISSIONS")
      by (apply Hset; set_solver).
    rewrite (setdefault_present "AUTHORIZE_DEFAULT_RESTRICTIONS")
      by (apply Hset; set_solver).
    rewrite (setdefault_present "AUTHORIZE_DEFAULT_ALLOWANCES")
      by (apply Hset; set_solver).
    apply setdefault_present, Hset. set_solver.
Qed.

(** X22 — Creating the plugin without an application and initialising it
    later does not install an accessor: after [Authorize()] and
    [init_app(app)] the global [CURRENT_USER] is what it was, so that, if it
    was never set, a decision without an explicit user raises a [TypeError]
    instead of deciding; [Authorize(app)] does install the Flask-Login
    accessor. *)
Theorem accessor_not_installed flask_login config0 global
    table_key default_allowances self args :
  let '(_, global1, outcome1) := Authorize_new flask_login None None global in
  let '(st, outcome2) :=
    init_app {| config := config0; current_user_global := global1 |} CUNone in
  outcome1 = Ok () ∧ outcome2 = Ok ()
  ∧ current_user_global st = global
  ∧ (global = None →
     allowed table_key default_allowances
       (call_global (current_user_global st)) self args KwNone
     = Raise (TypeError "'NoneType' object is not callable"))
  ∧ (Authorize_new flask_login (Some config0) None global).1.2
    = Some (flask_login_current_user flask_login).
Proof.
  simpl. split; [done|]. split; [done|]. split; [done|]. split; [|done].
  by intros ->.
Qed.

(** X23 — A missing Flask-Login shows at decision time: [Authorize(app)]
    succeeds without it, but every decision without an explicit user, and so
    every call of a decorated function, raises the [AssertionError] of
    [flask_login_current_user]; a decision with an explicit user is made as
    usual. *)
Theorem flask_login_missing config0 global table_key default_allowances :
  let '(_, global1, outcome) := Authorize_new None (Some config0) None global in
  outcome = Ok ()
  ∧ (∀ self args,
       allowed table_key default_allowances (call_global global1) self args KwNone
       = Raise (flask_login_error))
  ∧ (∀ auth func args kwargs_values,
       invoke table_key default_allowances (call_global global1)
         (Inner auth func) args kwargs_values
       = Raise (flask_login_error))
  ∧ (∀ self args u other,
       allowed table_key default_allowances (call_global global1) self args (KwUser u)
       = allowed table_key default_allowances other self args (KwUser u)).
Proof. simpl. done. Qed.

(** ** The further properties on the sample data *)

Import Views.

(** Alice is in the group "editors". *)
Lemma group_bypass_alice :
  verdict (Authorize_in_group (IScalar "editors")) [AObj page] (KwUser alice)
  = Ok true.
Proof.
  apply (group_bypass key_of_class std_allowances anonymous
           (Authorize_in_group (IScalar "editors")) [AObj page] (KwUser alice)
           alice [editors] editors).
  - reflexivity.
  - reflexivity.
  - apply list_elem_of_here.
  - apply list_elem_of_here.
Defined.

(** Reading a number: nothing to check and no bypass, so Alice is denied. *)
Lemma nothing_to_check_number :
  verdict Authorize_read [AObj number] (KwUser alice) = Ok false.
Proof.
  unfold verdict.
  rewrite (nothing_to_check key_of_class std_allowances anonymous
             Authorize_read [AObj number] (KwUser alice) alice).
  - reflexivity.
  - reflexivity.
  - right. intros a ->%list_elem_of_singleton. reflexivity.
Defined.

Lemma decision_by_sets_read_update :
  verdict read_and_update [AObj page] (KwUser erin)
  = verdict update_and_read_twice [AObj page] (KwUser erin).
Proof.
  apply (decision_by_sets key_of_class std_allowances anonymous
           read_and_update update_and_read_twice [AObj page] (KwUser erin)).
  - intros x. unfold permission. simpl. rewrite !elem_of_cons. tauto.
  - reflexivity.
  - reflexivity.
Defined.

Lemma merge_with_bypass_update_admin :
  verdict (concat_fields (may "update") (needs_role "admin"))
    [AObj (article erin)] (KwUser alice)
  = (x ← verdict (may "update") [AObj (article erin)] (KwUser alice);
     y ← verdict (needs_role "admin") [AObj (article erin)] (KwUser alice);
     Ok (x || y)).
Proof.
  apply (merge_with_bypass key_of_class std_allowances anonymous
           (may "update") (needs_role "admin")).
  reflexivity.
Defined.

Lemma model_ignored_create :
  verdict (Authorize_create (IScalar "Article")) [AObj page] (KwUser erin)
  = verdict (Authorize_create (IScalar "Page")) [AObj page] (KwUser erin).
Proof.
  apply (model_ignored key_of_class std_allowances anonymous
           (Authorize_create (IScalar "Article"))
           (Authorize_create (IScalar "Page")) [AObj page] (KwUser erin));
    reflexivity.
Defined.

Lemma role_authorizer_alice :
  verdict (Authorize_has_role (IScalar "admin")) [AObj page] (KwUser alice)
  = Ok (user_has_role alice ["admin"]).
Proof.
  apply (role_and_group_authorizers key_of_class std_allowances anonymous
           (IScalar "admin") [AObj page] (KwUser alice) alice).
  reflexivity.
Defined.

Lemma first_decisive_target_erin :
  verdict (may "update") [AObj draft; AObj (article erin)] (KwUser erin) = Ok true
  ↔ user_has_role erin [] = true
    ∨ user_in_group erin [] = true
    ∨ (["update"] ≠ []
       ∧ ∃ pre a post, [AObj draft; AObj (article erin)] = pre ++ a :: post
           ∧ (∀ x, x ∈ pre →
                check_arg key_of_class std_allowances erin (py_set ["update"]) x
                = None)
           ∧ check_arg key_of_class std_allowances erin (py_set ["update"]) a
             = Some true).
Proof.
  apply (first_decisive_target key_of_class std_allowances anonymous
           (may "update") [AObj draft; AObj (article erin)] (KwUser erin) erin).
  reflexivity.
Defined.

Lemma order_irrelevant_erin :
  verdict (may "update") [AObj draft; AObj (article erin)] (KwUser erin)
  = verdict (may "update") [AObj (article erin); AObj draft] (KwUser erin).
Proof.
  apply (order_irrelevant_without_denial key_of_class std_allowances anonymous
           (may "update") [AObj draft; AObj (article erin)]
           [AObj (article erin); AObj draft] (KwUser erin) erin).
  - reflexivity.
  - intros a [-> | ->%list_elem_of_singleton]%elem_of_cons;
      vm_compute; discriminate.
  - apply perm_swap.
Defined.

Lemma fewer_permissions_page :
  verdict (may "read") [AObj page] (KwUser erin) = Ok true.
Proof.
  apply (fewer_permissions key_of_class std_allowances anonymous
           read_and_update (may "read") [AObj page] (KwUser erin)).
  - reflexivity.
  - reflexivity.
  - discriminate.
  - intros x ->%list_elem_of_singleton. apply list_elem_of_here.
  - vm_compute. reflexivity.
Defined.

Lemma no_credentials_erin :
  verdict (may "update") [AObj (article erin)] (KwUser erin) = Ok true
  ↔ ∃ obj perms, AObj obj ∈ [AObj (article erin)]
      ∧ permissions obj = Some perms
      ∧ (tier_other (py_set ["update"]) perms
         ∨ tier_owner erin (py_set ["update"]) obj perms).
Proof.
  apply (no_credentials_tiers_only key_of_class std_allowances anonymous
           (may "update") [AObj (article erin)] (KwUser erin) erin).
  - reflexivity.
  - reflexivity.
  - discriminate.
Defined.

Lemma credentials_as_a_set_frank_grace :
  user_is_restricted key_of_class frank (py_set ["update"]) (article erin)
  = user_is_restricted key_of_class grace (py_set ["update"]) (article erin)
  ∧ user_is_allowed key_of_class std_allowances frank (py_set ["update"]) (article erin)
    = user_is_allowed key_of_class std_allowances grace (py_set ["update"]) (article erin).
Proof.
  apply (credentials_as_a_set key_of_class std_allowances frank grace).
  intros c. unfold credentials. simpl. rewrite !elem_of_cons. tauto.
Defined.

Lemma stacked_decoration_update_user :
  decorate (may "update")
    (register (needs_role "user-updators") "update_user" ∅).1
    (Inner (needs_role "user-updators") update_user)
  = Ok ((register (may "update") "update_user"
           (register (needs_role "user-updators") "update_user" ∅).1).1,
        Inner (concat_fields (needs_role "user-updators") (may "update"))
          (Inner (needs_role "user-updators") update_user)).
Proof.
  destruct (stacked_decoration key_of_class std_allowances anonymous
              (needs_role "user-updators") (may "update") "update_user" ∅)
    as (_ & Hsame & _).
  - reflexivity.
  - apply Hsame. by repeat split.
Defined.

Lemma invoke_anonymous_index :
  invoke key_of_class std_allowances anonymous (Inner Authorize_read index)
    [AObj page] []
  = Raise Unauthorized.
Proof.
  apply (invoke_anonymous key_of_class std_allowances anonymous).
  reflexivity.
Defined.

Lemma invoke_without_targets_index :
  invoke key_of_class std_allowances alice_logged_in (Inner Authorize_read index)
    [] []
  ≠ Ok ().
Proof.
  apply (invoke_without_targets key_of_class std_allowances alice_logged_in).
  - reflexivity.
  - reflexivity.
  - intros a Ha. inversion Ha.
Defined.

Lemma register_all_concat_three :
  (register_all [may "read"; needs_role "admin"; may "update"] "update_user" ∅).2
  = Ok ()
  ∧ permission (foldl concat_fields (may "read") [needs_role "admin"; may "update"])
    = ["read"; "update"]
  ∧ has_role (foldl concat_fields (may "read") [needs_role "admin"; may "update"])
    = ["admin"].
Proof.
  destruct (register_all_concat (may "read") [needs_role "admin"; may "update"]
              "update_user" ∅) as [Hsame _].
  - reflexivity.
  - destruct Hsame as (Hok & _ & Hp & Hr & _).
    + intros b [-> | ->%list_elem_of_singleton]%elem_of_cons; by repeat split.
    + split; [exact Hok|]. split; [exact Hp | exact Hr].
Defined.
